(** * 4C-Lite: the cleaning, matching and aggregation engine

    A shallow embedding of [utils/dataCleaningUtils.ts] (token cleaner and
    vocabulary builder) and of the engine functions of the
    [AnalysisResults] component (similarity scorer, matcher, compatibility
    classifier and row aggregation), followed by the properties proved
    about them.

    Conventions of the embedding.
    - A string is the list of its code units.  The development covers the
      code units below 256 (Latin-1), carried by [ascii]; on that range
      [toLowerCase] preserves the length of a string.  The similarity
      scorer is written for every carrier of code units, so that it can
      also be run on UTF-16 code units, where [toLowerCase] can lengthen a
      string.
    - A number of the matcher is an exact rational ([Q]).  Every number the
      matcher compares is a quotient of two string lengths, or one of the
      literals [0], [0.5], [0.6] and [1.0]; the orders of two such
      quotients as rationals and as IEEE doubles agree for all strings
      short enough to have a distance matrix in memory.
    - The numbers of the aggregation are sums of parsed cells, where the
      rounding of the doubles matters; the aggregation is written over an
      interface of the host's numbers, and the statements about it say
      which facts of the doubles they use.
    - [undefined] and absent optional fields are [None]. *)

From Stdlib Require Import Ascii String List Arith Bool ZArith QArith Lia
  Permutation.
Import ListNotations.

Local Open Scope nat_scope.
Local Open Scope bool_scope.
Local Open Scope list_scope.

(* ================================================================== *)
(** * Part I: definitions                                              *)
(* ================================================================== *)

(** ** Host strings *)

Abbreviation jsstring := (list ascii).

(** String literals of the source are written with [str]. *)
Definition str (s : string) : jsstring := list_ascii_of_string s.

Definition code (c : ascii) : nat := nat_of_ascii c.

Definition jsstring_eqb (a b : jsstring) : bool :=
  if list_eq_dec ascii_dec a b then true else false.

(** [WhiteSpace] and [LineTerminator] code units below 256: TAB, LF, VT,
    FF, CR, SP and NBSP.  Both [String.prototype.trim] and the class [\s]
    use this set. *)
Definition isSpace (c : ascii) : bool :=
  let n := code c in
  ((9 <=? n) && (n <=? 13)) || (n =? 32) || (n =? 160).

Definition isDigit (c : ascii) : bool :=
  let n := code c in (48 <=? n) && (n <=? 57).

Definition isUpper (c : ascii) : bool :=
  let n := code c in (65 <=? n) && (n <=? 90).

Definition isLower (c : ascii) : bool :=
  let n := code c in (97 <=? n) && (n <=? 122).

(** [[a-zA-Z]] *)
Definition isAlpha (c : ascii) : bool := isUpper c || isLower c.

(** [[a-zA-Z0-9]] *)
Definition isAlnum (c : ascii) : bool := isAlpha c || isDigit c.

(** [\w], that is [[A-Za-z0-9_]] *)
Definition isWord (c : ascii) : bool := isAlnum c || (code c =? 95).

(** [[0-9a-fA-F]] *)
Definition isHex (c : ascii) : bool :=
  let n := code c in
  isDigit c || ((97 <=? n) && (n <=? 102)) || ((65 <=? n) && (n <=? 70)).

(** [toLowerCase] on one code unit: A-Z, and the Latin-1 capitals
    U+00C0..U+00DE except the multiplication sign U+00D7. *)
Definition lowerChar (c : ascii) : ascii :=
  let n := code c in
  if isUpper c then ascii_of_nat (n + 32)
  else if (192 <=? n) && (n <=? 222) && negb (n =? 215)
       then ascii_of_nat (n + 32)
       else c.

Definition toLowerCase (s : jsstring) : jsstring := map lowerChar s.

Fixpoint dropWhile (p : ascii -> bool) (s : jsstring) : jsstring :=
  match s with
  | [] => []
  | c :: s' => if p c then dropWhile p s' else s
  end.

Definition trimStart (s : jsstring) : jsstring := dropWhile isSpace s.

Definition trimEnd (s : jsstring) : jsstring :=
  rev (dropWhile isSpace (rev s)).

Definition trim (s : jsstring) : jsstring := trimEnd (trimStart s).

Fixpoint startsWith (s p : jsstring) : bool :=
  match p, s with
  | [], _ => true
  | _ :: _, [] => false
  | x :: p', y :: s' => Ascii.eqb x y && startsWith s' p'
  end.

(** [s.includes(p)]: [p] occurs in [s] as a contiguous substring. *)
Fixpoint includes (s p : jsstring) : bool :=
  startsWith s p ||
  match s with
  | [] => false
  | _ :: s' => includes s' p
  end.

(** [s.split(/\s+/)].  The flag tells whether the scan is inside a run of
    white space; every run separates two pieces, so white space at either
    end of [s] yields an empty piece there and the empty string yields one
    empty piece. *)
Fixpoint splitRuns (inRun : bool) (s : jsstring) : list jsstring :=
  match s with
  | [] => [[]]
  | c :: s' =>
      if isSpace c then
        if inRun then splitRuns true s' else [] :: splitRuns true s'
      else
        match splitRuns false s' with
        | piece :: pieces => (c :: piece) :: pieces
        | [] => [[c]]
        end
  end.

Definition splitWhitespace (s : jsstring) : list jsstring := splitRuns false s.

Definition nonEmpty (s : jsstring) : bool :=
  match s with [] => false | _ :: _ => true end.

(** [arr.join(' ')] *)
Fixpoint join (parts : list jsstring) : jsstring :=
  match parts with
  | [] => []
  | [p] => p
  | p :: rest => p ++ " "%char :: join rest
  end.

(** ** Regular expressions

    The patterns of the source use character classes, concatenation,
    alternation, bounded repetition and the anchors [^] and [$] around
    whole alternatives.  [RegExp.prototype.test] on such a pattern decides
    membership in a regular language, computed here with derivatives. *)

Inductive re : Type :=
| Void : re
| Eps : re
| Cls : (ascii -> bool) -> re
| Seq : re -> re -> re
| Alt : re -> re -> re
| Star : re -> re.

Fixpoint nullable (r : re) : bool :=
  match r with
  | Void => false
  | Eps => true
  | Cls _ => false
  | Seq r1 r2 => nullable r1 && nullable r2
  | Alt r1 r2 => nullable r1 || nullable r2
  | Star _ => true
  end.

Fixpoint deriv (c : ascii) (r : re) : re :=
  match r with
  | Void => Void
  | Eps => Void
  | Cls p => if p c then Eps else Void
  | Seq r1 r2 =>
      if nullable r1 then Alt (Seq (deriv c r1) r2) (deriv c r2)
      else Seq (deriv c r1) r2
  | Alt r1 r2 => Alt (deriv c r1) (deriv c r2)
  | Star r1 => Seq (deriv c r1) (Star r1)
  end.

Fixpoint matches (r : re) (s : jsstring) : bool :=
  match s with
  | [] => nullable r
  | c :: s' => matches (deriv c r) s'
  end.

(** The language of a pattern. *)
Inductive lang : re -> jsstring -> Prop :=
| LEps : lang Eps []
| LCls : forall (p : ascii -> bool) c, p c = true -> lang (Cls p) [c]
| LSeq : forall r1 r2 s1 s2,
    lang r1 s1 -> lang r2 s2 -> lang (Seq r1 r2) (s1 ++ s2)
| LAltL : forall r1 r2 s, lang r1 s -> lang (Alt r1 r2) s
| LAltR : forall r1 r2 s, lang r2 s -> lang (Alt r1 r2) s
| LStarNil : forall r, lang (Star r) []
| LStarApp : forall r s1 s2,
    lang r s1 -> lang (Star r) s2 -> lang (Star r) (s1 ++ s2).

(** Pattern syntax. *)
Definition chr (c : ascii) : re := Cls (Ascii.eqb c).

(** The literal character, matched without regard to case ([/i]). *)
Definition chrI (c : ascii) : re :=
  Cls (fun x => Ascii.eqb (lowerChar x) (lowerChar c)).

Definition anyChar : re := Cls (fun _ => true).

Fixpoint lit (s : jsstring) : re :=
  match s with
  | [] => Eps
  | c :: s' => Seq (chr c) (lit s')
  end.

Fixpoint litI (s : jsstring) : re :=
  match s with
  | [] => Eps
  | c :: s' => Seq (chrI c) (litI s')
  end.

(** [r?] *)
Definition opt (r : re) : re := Alt r Eps.

(** [r+] *)
Definition plus (r : re) : re := Seq r (Star r).

(** [r{n}] *)
Fixpoint rep (n : nat) (r : re) : re :=
  match n with
  | O => Eps
  | S n' => Seq r (rep n' r)
  end.

(** [r{0,n}] *)
Fixpoint upTo (n : nat) (r : re) : re :=
  match n with
  | O => Eps
  | S n' => opt (Seq r (upTo n' r))
  end.

(** [r{lo,hi}] *)
Definition range (lo hi : nat) (r : re) : re :=
  Seq (rep lo r) (upTo (hi - lo) r).

Fixpoint alts (rs : list re) : re :=
  match rs with
  | [] => Void
  | [r] => r
  | r :: rs' => Alt r (alts rs')
  end.

(** [/^r$/.test(s)] *)
Definition testWhole (r : re) (s : jsstring) : bool := matches r s.

(** [/r/.test(s)], the unanchored search. *)
Definition testSearch (r : re) (s : jsstring) : bool :=
  matches (Seq (Star anyChar) (Seq r (Star anyChar))) s.

(** ** Token cleaner ([dataCleaningUtils.ts]) *)

Definition COMMON_WORDS : list jsstring :=
  map str
    [ "the"; "and"; "for"; "are"; "but"; "not"; "you"; "all"; "can"; "had";
      "her"; "was"; "one"; "our"; "out"; "day"; "get"; "has"; "him"; "his";
      "how"; "man"; "new"; "now"; "old"; "see"; "two"; "way"; "who"; "boy";
      "did"; "its"; "let"; "put"; "say"; "she"; "too"; "use";
      "camera"; "security"; "surveillance"; "system"; "device"; "equipment";
      "network"; "wireless"; "indoor"; "outdoor"; "dome"; "bullet"; "ptz";
      "fixed"; "varifocal"; "lens"; "megapixel"; "resolution"; "night";
      "vision"; "infrared"; "audio"; "video"; "digital"; "analog"; "hybrid";
      "nvr"; "dvr"; "recorder"; "channel"; "port"; "power"; "supply";
      "adapter"; "cable"; "mount"; "bracket"; "housing"; "enclosure" ]%string.

(** [[lo-hi]] *)
Definition between (lo hi : ascii) (c : ascii) : bool :=
  (code lo <=? code c) && (code c <=? code hi).

Definition digit : re := Cls isDigit.
Definition hexDigit : re := Cls isHex.

(** [25[0-5]|2[0-4][0-9]|[01]?[0-9][0-9]?] *)
Definition octetRe : re :=
  alts [ Seq (lit (str "25")) (Cls (between "0" "5"));
         Seq (chr "2") (Seq (Cls (between "0" "4")) (Cls (between "0" "9")));
         Seq (opt (Cls (between "0" "1")))
             (Seq (Cls (between "0" "9")) (opt (Cls (between "0" "9")))) ].

(** [/^(?:(?:octet)\.){3}(?:octet)$/] *)
Definition IP_ADDRESS_RE : re := Seq (rep 3 (Seq octetRe (chr "."))) octetRe.

Definition IP_ADDRESS_PATTERN (s : jsstring) : bool := testWhole IP_ADDRESS_RE s.

(** [(?:[0-9a-fA-F]{1,4}:){7}[0-9a-fA-F]{1,4}] *)
Definition IPV6_FULL_RE : re :=
  Seq (rep 7 (Seq (range 1 4 hexDigit) (chr ":"))) (range 1 4 hexDigit).

(** [/^full$|^::1$|^::$/] *)
Definition IPV6_PATTERN (s : jsstring) : bool :=
  testWhole IPV6_FULL_RE s
  || testWhole (lit (str "::1")) s
  || testWhole (lit (str "::")) s.

(** [([0-9A-Fa-f]{2}[:-]){5}([0-9A-Fa-f]{2})] *)
Definition MAC_PAIRS_RE : re :=
  Seq (rep 5 (Seq (rep 2 hexDigit)
                  (Cls (fun c => Ascii.eqb c ":" || Ascii.eqb c "-"))))
      (rep 2 hexDigit).

(** [([0-9A-Fa-f]{4}\.){2}[0-9A-Fa-f]{4}] *)
Definition MAC_DOTTED_RE : re :=
  Seq (rep 2 (Seq (rep 4 hexDigit) (chr "."))) (rep 4 hexDigit).

Definition MAC_ADDRESS_PATTERN (s : jsstring) : bool :=
  testWhole MAC_PAIRS_RE s || testWhole MAC_DOTTED_RE s.

(** [\d{1,2}SEP\d{1,2}SEP\d{2,4}] *)
Definition dateDMY (sep : ascii) : re :=
  Seq (range 1 2 digit)
      (Seq (chr sep) (Seq (range 1 2 digit) (Seq (chr sep) (range 2 4 digit)))).

(** [\d{4}-\d{1,2}-\d{1,2}] *)
Definition dateISO : re :=
  Seq (rep 4 digit)
      (Seq (chr "-") (Seq (range 1 2 digit) (Seq (chr "-") (range 1 2 digit)))).

Definition monthNames : list jsstring :=
  map str [ "Jan"; "Feb"; "Mar"; "Apr"; "May"; "Jun";
            "Jul"; "Aug"; "Sep"; "Oct"; "Nov"; "Dec" ]%string.

(** [(Jan|...|Dec)\s+\d{1,2},?\s+\d{2,4}] with the flag [i] *)
Definition dateMonth : re :=
  Seq (alts (map litI monthNames))
      (Seq (plus (Cls isSpace))
           (Seq (range 1 2 digit)
                (Seq (opt (chr ","))
                     (Seq (plus (Cls isSpace)) (range 2 4 digit))))).

Definition DATE_PATTERNS : list (jsstring -> bool) :=
  [ testWhole (dateDMY "/");
    testWhole (dateDMY "-");
    testWhole dateISO;
    testWhole (dateDMY ".");
    testWhole dateMonth ].

(** [/^[a-zA-Z]+$/] *)
Definition ALPHABETIC_RE : re := plus (Cls isAlpha).

(** [/[a-zA-Z0-9]/] *)
Definition ALNUM_RE : re := Cls isAlnum.

(** The class [[^\w\s-_\.]]: between the class escape [\s] and [_] the
    hyphen is a literal, so the class excludes word characters, white
    space, [-], [_] and [.]. *)
Definition punctClass (c : ascii) : bool :=
  negb (isWord c || isSpace c
        || Ascii.eqb c "-" || Ascii.eqb c "_" || Ascii.eqb c ".").

(** [/^[^\w\s-_\.]+$/] *)
Definition PUNCTUATION_RE : re := plus (Cls punctClass).

Record CleaningResult : Type := mkCleaningResult {
  original : jsstring;
  cleaned : jsstring;
  removedElements : list jsstring
}.

(** The test of a token against the manufacturer names. *)
Definition matchesManufacturer (manufacturerNames : list jsstring)
    (tokenLower : jsstring) : bool :=
  existsb (fun manufacturer =>
             jsstring_eqb (toLowerCase manufacturer) tokenLower
             || includes tokenLower (toLowerCase manufacturer)
             || includes (toLowerCase manufacturer) tokenLower)
          manufacturerNames.

(** The callback of [tokens.filter] in [cleanModelData].  It answers
    whether the token is kept and returns the [removedElements] array after
    its pushes. *)
Definition filterToken (manufacturerNames : list jsstring)
    (removed : list jsstring) (token : jsstring) : bool * list jsstring :=
  let trimmedToken := trim token in
  if negb (nonEmpty trimmedToken) then (false, removed)
  else if IP_ADDRESS_PATTERN trimmedToken || IPV6_PATTERN trimmedToken
  then (false, removed ++ [str "IP: " ++ trimmedToken])
  else if MAC_ADDRESS_PATTERN trimmedToken
  then (false, removed ++ [str "MAC: " ++ trimmedToken])
  else if existsb (fun pattern => pattern trimmedToken) DATE_PATTERNS
  then (false, removed ++ [str "Date: " ++ trimmedToken])
  else
    let tokenLower := toLowerCase trimmedToken in
    if matchesManufacturer manufacturerNames tokenLower
    then (false, removed ++ [str "Manufacturer: " ++ trimmedToken])
    else if testWhole ALPHABETIC_RE trimmedToken
            && (2 <? length trimmedToken)
            && existsb (jsstring_eqb tokenLower) COMMON_WORDS
    then (false, removed ++ [str "Common word: " ++ trimmedToken])
    else if testSearch ALNUM_RE trimmedToken
    then (true, removed)
    else if testWhole PUNCTUATION_RE trimmedToken
    then (false, removed ++ [str "Punctuation: " ++ trimmedToken])
    else (true, removed).

(** [tokens.filter(callback)] with the array the callback pushes to. *)
Fixpoint filterTokens (manufacturerNames : list jsstring)
    (removed : list jsstring) (tokens : list jsstring)
    : list jsstring * list jsstring :=
  match tokens with
  | [] => ([], removed)
  | token :: rest =>
      let (keep, removed1) := filterToken manufacturerNames removed token in
      let (kept, removed2) := filterTokens manufacturerNames removed1 rest in
      (if keep then token :: kept else kept, removed2)
  end.

(** [original.split(/\s+/).filter(token => token.length > 0)] *)
Definition tokensOf (s : jsstring) : list jsstring :=
  filter nonEmpty (splitWhitespace s).

Definition cleanModelData (input : jsstring) (manufacturerNames : list jsstring)
    : CleaningResult :=
  if negb (nonEmpty input) then
    mkCleaningResult [] [] []
  else
    let original := trim input in
    let tokens := tokensOf original in
    let (cleanedTokens, removedElements) :=
      filterTokens manufacturerNames [] tokens in
    mkCleaningResult original (trim (join cleanedTokens)) removedElements.

Definition preprocessModelForMatching (model : jsstring)
    (manufacturerNames : list jsstring) : jsstring :=
  cleaned (cleanModelData model manufacturerNames).

(** ** Catalog ([verkadaLoader.ts]) *)

Record VerkadaModel : Type := mkVerkadaModel {
  manufacturer : jsstring;
  modelName : jsstring;
  minimumFirmware : jsstring;
  notes : jsstring
}.

(** [Set.prototype.add]: insertion order, no duplicates. *)
Definition setAdd (s : list jsstring) (x : jsstring) : list jsstring :=
  if existsb (jsstring_eqb x) s then s else s ++ [x].

Definition extractManufacturerNames (verkadaModels : list VerkadaModel)
    : list jsstring :=
  fold_left
    (fun manufacturers model =>
       if nonEmpty (manufacturer model) && nonEmpty (trim (manufacturer model))
       then
         let name := trim (manufacturer model) in
         fold_left
           (fun acc word => if 2 <? length word then setAdd acc word else acc)
           (splitWhitespace name)
           (setAdd manufacturers name)
       else manufacturers)
    verkadaModels [].

(** ** Compatibility classifier, similarity scorer and matcher
    ([AnalysisResults]) *)

Inductive CompatibilityType : Type := RTSP | ONVIF_S.

Inductive MatchType : Type := exact | potential | none.

Definition getCompatibilityType (verkadaModel : option VerkadaModel)
    : CompatibilityType :=
  match verkadaModel with
  | None => ONVIF_S
  | Some m =>
      if negb (nonEmpty (notes m)) then ONVIF_S
      else if includes (toLowerCase (notes m)) (str "rtsp support only")
           then RTSP else ONVIF_S
  end.

(** The scorer compares code units with [===] and lower-cases strings; it
    is written once for every carrier of code units.  [latin1] is the
    carrier of this development.  [utf16] carries the code units as
    numbers and describes [toLowerCase] on the code units below 256 and on
    U+0130, the capital I with a dot above, whose lower case is the two
    code units U+0069 U+0307. *)
Class HostChar (char : Type) : Type := {
  sameChar : char -> char -> bool;
  sameChar_eq : forall a b, sameChar a b = true <-> a = b;
  lowerCase : list char -> list char
}.

#[export] Instance latin1 : HostChar ascii := {
  sameChar := Ascii.eqb;
  sameChar_eq := Ascii.eqb_eq;
  lowerCase := toLowerCase
}.

(** [toLowerCase] on one code unit of that range: A-Z and the Latin-1
    capitals as in [lowerChar], and U+0130.  The other code units are left
    as they are. *)
Definition lowerUnit (u : N) : list N :=
  if ((65 <=? u) && (u <=? 90))%N then [(u + 32)%N]
  else if ((192 <=? u) && (u <=? 222) && negb (u =? 215))%N
       then [(u + 32)%N]
       else if (u =? 304)%N then [105%N; 775%N]
            else [u].

#[export] Instance utf16 : HostChar N := {
  sameChar := N.eqb;
  sameChar_eq := N.eqb_eq;
  lowerCase := flat_map lowerUnit
}.

Section Scorer.

Context {char : Type} {host : HostChar char}.

(** Row 0 of the matrix: [matrix[0][j] = j] for [j] from [0] to
    [str1.length]. *)
Definition firstRow (str1 : list char) : list nat := seq 0 (S (length str1)).

(** The inner loop at row [i]: the cells [matrix[i][j]] for the remaining
    characters of [str1].  [prev] is row [i-1] from column [j-1] on and
    [left] is [matrix[i][j-1]]. *)
Fixpoint fillRow (c2 : char) (str1 : list char) (prev : list nat) (left : nat)
    : list nat :=
  match str1, prev with
  | c1 :: str1', diag :: ((up :: _) as prev') =>
      let cell :=
        if sameChar c2 c1 then diag
        else Nat.min (diag + 1) (Nat.min (left + 1) (up + 1)) in
      cell :: fillRow c2 str1' prev' cell
  | _, _ => []
  end.

(** Row [i], which starts with [matrix[i] = [i]]. *)
Definition nextRow (i : nat) (c2 : char) (str1 : list char) (prev : list nat)
    : list nat :=
  i :: fillRow c2 str1 prev i.

(** The outer loop: rows [i], [i+1], ... for the remaining characters of
    [str2]. *)
Fixpoint fillRows (i : nat) (str2 str1 : list char) (prev : list nat)
    : list (list nat) :=
  match str2 with
  | [] => []
  | c2 :: str2' =>
      let row := nextRow i c2 str1 prev in
      row :: fillRows (S i) str2' str1 row
  end.

Definition levenshteinMatrix (str1 str2 : list char) : list (list nat) :=
  firstRow str1 :: fillRows 1 str2 str1 (firstRow str1).

Definition levenshteinDistance (str1 str2 : list char) : nat :=
  nth (length str1) (nth (length str2) (levenshteinMatrix str1 str2) []) 0.

Definition calculateSimilarity (str1 str2 : list char) : Q :=
  let longer := if length str2 <? length str1 then str1 else str2 in
  let shorter := if length str2 <? length str1 then str2 else str1 in
  if length longer =? 0 then 1%Q
  else
    let editDistance :=
      levenshteinDistance (lowerCase longer) (lowerCase shorter) in
    Qmake (Z.of_nat (length longer) - Z.of_nat editDistance)
          (Pos.of_nat (length longer)).

End Scorer.

(** [a > b] on numbers. *)
Definition Qgtb (a b : Q) : bool := negb (Qle_bool a b).

Record MatchInfo : Type := mkMatchInfo {
  matchType : MatchType;
  matchedWith : option jsstring;
  similarity : option Q;
  verkadaDetails : option VerkadaModel;
  compatibilityType : option CompatibilityType
}.

Definition noMatch : MatchInfo := mkMatchInfo none None None None None.

(** The first loop of [findBestMatch]: it returns from the function at the
    first entry whose cleaned name equals [modelLower]. *)
Fixpoint exactPass (verkadaModels : list VerkadaModel)
    (manufacturerNames : list jsstring) (modelLower : jsstring)
    : option MatchInfo :=
  match verkadaModels with
  | [] => None
  | verkadaModel :: rest =>
      let cleanedVerkadaModel :=
        preprocessModelForMatching (modelName verkadaModel) manufacturerNames in
      if jsstring_eqb (toLowerCase cleanedVerkadaModel) modelLower
      then Some (mkMatchInfo exact (Some (modelName verkadaModel)) (Some 1%Q)
                   (Some verkadaModel)
                   (Some (getCompatibilityType (Some verkadaModel))))
      else exactPass rest manufacturerNames modelLower
  end.

(** The four variables of the second loop. *)
Record Best : Type := mkBest {
  bestMatch : jsstring;
  bestSimilarity : Q;
  bestOriginalModel : jsstring;
  bestVerkadaModel : option VerkadaModel
}.

Definition initialBest : Best := mkBest [] 0%Q [] None.

(** The similarity of a catalog entry to [modelLower]. *)
Definition entrySimilarity (manufacturerNames : list jsstring)
    (modelLower : jsstring) (verkadaModel : VerkadaModel) : Q :=
  calculateSimilarity modelLower
    (toLowerCase
       (preprocessModelForMatching (modelName verkadaModel) manufacturerNames)).

(** [isSubset] for a catalog entry. *)
Definition entryIsSubset (manufacturerNames : list jsstring)
    (modelLower : jsstring) (verkadaModel : VerkadaModel) : bool :=
  let cleanedVerkadaModel :=
    preprocessModelForMatching (modelName verkadaModel) manufacturerNames in
  includes modelLower (toLowerCase cleanedVerkadaModel)
  || includes (toLowerCase cleanedVerkadaModel) modelLower.

(** The body of the second loop. *)
Definition potentialStep (manufacturerNames : list jsstring)
    (modelLower : jsstring) (best : Best) (verkadaModel : VerkadaModel) : Best :=
  let cleanedVerkadaModel :=
    preprocessModelForMatching (modelName verkadaModel) manufacturerNames in
  let similarity := entrySimilarity manufacturerNames modelLower verkadaModel in
  let isSubset := entryIsSubset manufacturerNames modelLower verkadaModel in
  if Qgtb similarity (bestSimilarity best)
     || (isSubset && Qgtb similarity (1 # 2))
  then mkBest cleanedVerkadaModel similarity (modelName verkadaModel)
         (Some verkadaModel)
  else best.

Definition potentialPass (verkadaModels : list VerkadaModel)
    (manufacturerNames : list jsstring) (modelLower : jsstring) : Best :=
  fold_left (potentialStep manufacturerNames modelLower) verkadaModels
    initialBest.

(** [verkadaModels] is the catalog the component closes over. *)
Definition findBestMatch (verkadaModels : list VerkadaModel)
    (cleanedModel : jsstring) (manufacturerNames : list jsstring) : MatchInfo :=
  if negb (nonEmpty cleanedModel) || negb (nonEmpty (trim cleanedModel))
  then noMatch
  else
    let modelLower := trim (toLowerCase cleanedModel) in
    match exactPass verkadaModels manufacturerNames modelLower with
    | Some found => found
    | None =>
        let best := potentialPass verkadaModels manufacturerNames modelLower in
        if Qgtb (bestSimilarity best) (6 # 10)
        then mkMatchInfo potential (Some (bestOriginalModel best))
               (Some (bestSimilarity best)) (bestVerkadaModel best)
               (Some (getCompatibilityType (bestVerkadaModel best)))
        else noMatch
    end.

(** ** Aggregation ([results] in [AnalysisResults]) *)

Record ColumnSelection : Type := mkColumnSelection {
  modelColumn : option jsstring;
  countColumn : option jsstring
}.

(** [headers.indexOf(name)]; [None] stands for [-1]. *)
Fixpoint indexOf (headers : list jsstring) (name : jsstring) : option nat :=
  match headers with
  | [] => None
  | h :: rest =>
      if jsstring_eqb h name then Some 0
      else option_map S (indexOf rest name)
  end.

(** [row[index]], [undefined] when the index is [-1] or past the row. *)
Definition cellAt (row : list jsstring) (index : option nat) : option jsstring :=
  match index with
  | None => None
  | Some i => nth_error row i
  end.

(** A string value that is not falsy. *)
Definition truthy (cell : option jsstring) : bool :=
  match cell with
  | Some s => nonEmpty s
  | None => false
  end.

(** [Map.prototype.get] on the entries of a [Map]. *)
Fixpoint mapGet {V : Type} (m : list (jsstring * V)) (key : jsstring)
    : option V :=
  match m with
  | [] => None
  | (k, v) :: rest => if jsstring_eqb k key then Some v else mapGet rest key
  end.

(** [Map.prototype.set]: a present key keeps its place, a new key goes
    last. *)
Fixpoint mapSet {V : Type} (m : list (jsstring * V)) (key : jsstring)
    (value : V) : list (jsstring * V) :=
  match m with
  | [] => [(key, value)]
  | (k, v) :: rest =>
      if jsstring_eqb k key then (k, value) :: rest
      else (k, v) :: mapSet rest key value
  end.

(** The numbers of the aggregation are the doubles of the host.  The code
    adds them, writes the literals [0] and [1], tests them for truth ([NaN]
    and the zeros are falsy) and reads them with [parseFloat], which takes
    the string of its argument.  The embedding takes these operations as an
    interface; what a proof needs of the doubles is a hypothesis of its
    statement. *)
Class HostNumber (number : Type) : Type := {
  numberAdd : number -> number -> number;
  numberOfInt : Z -> number;
  numberIsFalsy : number -> bool;
  parseFloat : jsstring -> number
}.

Section Aggregation.

Context {number : Type} `{HostNumber number}.

(** [x || 0] on a number that may be [undefined]. *)
Definition orZero (x : option number) : number :=
  match x with
  | Some v => if numberIsFalsy v then numberOfInt 0 else v
  | None => numberOfInt 0
  end.

(** [parseFloat(row[countColumnIndex]) || 0]; an [undefined] cell is parsed
    as the string [undefined]. *)
Definition countValueOf (row : list jsstring) (countColumnIndex : option nat)
    : number :=
  orZero (Some (parseFloat match cellAt row countColumnIndex with
                           | Some cell => cell
                           | None => str "undefined"
                           end)).

(** The callback of [data.rows.forEach]. *)
Definition aggregateRow (modelColumnIndex countColumnIndex : option nat)
    (aggregatedData : list (jsstring * number)) (row : list jsstring)
    : list (jsstring * number) :=
  match cellAt row modelColumnIndex with
  | Some model =>
      if negb (nonEmpty model) then aggregatedData
      else
        match countColumnIndex with
        | Some _ =>
            mapSet aggregatedData model
              (numberAdd (orZero (mapGet aggregatedData model))
                         (countValueOf row countColumnIndex))
        | None =>
            mapSet aggregatedData model
              (numberAdd (orZero (mapGet aggregatedData model))
                         (numberOfInt 1))
        end
  | None => aggregatedData
  end.

Definition modelColumnIndexOf (headers : list jsstring)
    (selection : ColumnSelection) : option nat :=
  match modelColumn selection with
  | Some name => indexOf headers name
  | None => None
  end.

Definition countColumnIndexOf (headers : list jsstring)
    (selection : ColumnSelection) : option nat :=
  match countColumn selection with
  | Some name => if nonEmpty name then indexOf headers name else None
  | None => None
  end.

(** The entries of [aggregatedData] after the loop over the rows. *)
Definition aggregate (headers : list jsstring) (rows : list (list jsstring))
    (selection : ColumnSelection) : list (jsstring * number) :=
  fold_left
    (aggregateRow (modelColumnIndexOf headers selection)
                  (countColumnIndexOf headers selection))
    rows [].

(** [results.reduce((sum, result) => sum + result.count, 0)], on the labels
    and counts of the results. *)
Definition totalCount (results : list (jsstring * number)) : number :=
  fold_left (fun sum result => numberAdd sum (snd result)) results
    (numberOfInt 0).

End Aggregation.

(** ** Specification-side definitions *)

(** [catalog] has no exact match for the lower-cased label [modelLower]. *)
Definition noExactMatch (verkadaModels : list VerkadaModel)
    (manufacturerNames : list jsstring) (modelLower : jsstring) : Prop :=
  forall m, In m verkadaModels ->
    toLowerCase (preprocessModelForMatching (modelName m) manufacturerNames)
    <> modelLower.

(** The similarity of a catalog entry to the label: the scorer on the
    cleaned label and the cleaned name of the entry, both in lower case. *)
Definition similarityTo (manufacturerNames : list jsstring)
    (cleanedModel : jsstring) (entry : VerkadaModel) : Q :=
  calculateSimilarity (toLowerCase cleanedModel)
    (toLowerCase
       (preprocessModelForMatching (modelName entry) manufacturerNames)).

(** The tracked best after a replacement at [entry]: the entry with its
    cleaned name, its similarity to the label and its name as given. *)
Definition candidate (manufacturerNames : list jsstring)
    (cleanedModel : jsstring) (entry : VerkadaModel) : Best :=
  mkBest (preprocessModelForMatching (modelName entry) manufacturerNames)
         (similarityTo manufacturerNames cleanedModel entry)
         (modelName entry) (Some entry).

(** The result of the matcher for a tracked best. *)
Definition classify (best : Best) : MatchInfo :=
  if Qgtb (bestSimilarity best) (6 # 10)
  then mkMatchInfo potential (Some (bestOriginalModel best))
         (Some (bestSimilarity best)) (bestVerkadaModel best)
         (Some (getCompatibilityType (bestVerkadaModel best)))
  else noMatch.

(** A catalog in which a later contained entry displaces a closer one. *)
Definition displacingCatalog : list VerkadaModel :=
  [ mkVerkadaModel (str "Hikvision") (str "DS2CD2143H") [] [];
    mkVerkadaModel (str "Hikvision") (str "DS2CD2") [] [] ].

(** A token: a non-empty string without white space. *)
Definition isToken (t : jsstring) : Prop :=
  t <> [] /\ Forall (fun c => isSpace c = false) t.

(** [p] occurs in [s] as a contiguous substring. *)
Definition substringOf (p s : jsstring) : Prop :=
  exists before after, s = before ++ p ++ after.

(** One string occurs in the other, case aside. *)
Definition containsEitherWay (a b : jsstring) : Prop :=
  substringOf (toLowerCase a) (toLowerCase b)
  \/ substringOf (toLowerCase b) (toLowerCase a).

(** The replacement condition of the potential pass, as the spec words it:
    the entry's similarity to the label exceeds the tracked one, or one of
    the two cleaned strings is a substring of the other, case aside, and
    the entry's similarity exceeds one half. *)
Definition replaces (manufacturerNames : list jsstring)
    (cleanedModel : jsstring) (best : Best) (entry : VerkadaModel) : Prop :=
  let similarity := similarityTo manufacturerNames cleanedModel entry in
  (bestSimilarity best < similarity)%Q
  \/ (containsEitherWay cleanedModel
        (preprocessModelForMatching (modelName entry) manufacturerNames)
      /\ (1 # 2 < similarity)%Q).

(** The six reasons a token is removed for. *)
Inductive Reason : Type :=
| IP | MAC | Date | Manufacturer | CommonWord | Punctuation.

Definition reasonLabel (r : Reason) : jsstring :=
  match r with
  | IP => str "IP"
  | MAC => str "MAC"
  | Date => str "Date"
  | Manufacturer => str "Manufacturer"
  | CommonWord => str "Common word"
  | Punctuation => str "Punctuation"
  end.

(** The entry of [removedElements] for a token: ["<reason>: <token>"]. *)
Definition removedEntry (r : Reason) (token : jsstring) : jsstring :=
  reasonLabel r ++ str ": " ++ token.

(** The rules of the cleaner in their order of priority; [None] when no
    rule removes the token. *)
Definition verdict (manufacturerNames : list jsstring) (token : jsstring)
    : option Reason :=
  if IP_ADDRESS_PATTERN token || IPV6_PATTERN token then Some IP
  else if MAC_ADDRESS_PATTERN token then Some MAC
  else if existsb (fun pattern => pattern token) DATE_PATTERNS then Some Date
  else if matchesManufacturer manufacturerNames (toLowerCase token)
  then Some Manufacturer
  else if testWhole ALPHABETIC_RE token && (2 <? length token)
          && existsb (jsstring_eqb (toLowerCase token)) COMMON_WORDS
  then Some CommonWord
  else if existsb isAlnum token then None
  else if forallb punctClass token then Some Punctuation
  else None.

Definition isKept (manufacturerNames : list jsstring) (token : jsstring)
    : bool :=
  match verdict manufacturerNames token with
  | None => true
  | Some _ => false
  end.

Definition removedFor (manufacturerNames : list jsstring) (token : jsstring)
    : list jsstring :=
  match verdict manufacturerNames token with
  | None => []
  | Some r => [removedEntry r token]
  end.

(** The 256 characters. *)
Definition allAscii : list ascii := map ascii_of_nat (seq 0 256).

(** A sufficient test that every word of the language of [r] holds a
    character of class [q]. *)
Fixpoint demands (q : ascii -> bool) (r : re) : bool :=
  match r with
  | Void => true
  | Eps => false
  | Cls p => forallb (fun c => implb (p c) (q c)) allAscii
  | Seq r1 r2 => demands q r1 || demands q r2
  | Alt r1 r2 => demands q r1 && demands q r2
  | Star _ => false
  end.

(** A string that is empty or ends with a character that is not white
    space. *)
Definition endsClean (s : jsstring) : Prop :=
  s = [] \/ exists s' c, s = s' ++ [c] /\ isSpace c = false.

(** A string that is empty or starts with a character that is not white
    space. *)
Definition startsClean (s : jsstring) : Prop :=
  s = [] \/ exists c s', s = c :: s' /\ isSpace c = false.

(** The value of a string of decimal digits. *)
Definition decimalValue (ds : jsstring) : nat :=
  fold_left (fun acc c => 10 * acc + (code c - 48)) ds 0.

(** An octet in decimal: one to three digits with a value of at most 255. *)
Definition validOctet (o : jsstring) : Prop :=
  1 <= length o <= 3
  /\ Forall (fun c => isDigit c = true) o
  /\ decimalValue o <= 255.

(** [parts] joined by the character [sep]. *)
Fixpoint joinWith (sep : ascii) (parts : list jsstring) : jsstring :=
  match parts with
  | [] => []
  | [p] => p
  | p :: rest => p ++ sep :: joinWith sep rest
  end.

(** A dotted quad of four valid octets. *)
Definition validIPv4 (t : jsstring) : Prop :=
  exists a b c d,
    validOctet a /\ validOctet b /\ validOctet c /\ validOctet d
    /\ t = joinWith "." [a; b; c; d].

(** A group of an IPv6 address: one to four hexadecimal digits. *)
Definition hexGroup (g : jsstring) : Prop :=
  1 <= length g <= 4 /\ Forall (fun c => isHex c = true) g.

(** The full form of an IPv6 address: eight groups separated by colons. *)
Definition fullIPv6 (t : jsstring) : Prop :=
  exists gs, length gs = 8 /\ Forall hexGroup gs /\ t = joinWith ":" gs.

(** The compressed form: one run of zero groups written [::], with at most
    seven groups around it. *)
Definition compressedIPv6 (t : jsstring) : Prop :=
  exists before after,
    length before + length after <= 7
    /\ Forall hexGroup before /\ Forall hexGroup after
    /\ t = joinWith ":" before ++ str "::" ++ joinWith ":" after.

(** No manufacturer name equals the token, occurs in it or contains it,
    case aside. *)
Definition noManufacturerIn (manufacturerNames : list jsstring)
    (token : jsstring) : Prop :=
  forall m, In m manufacturerNames ->
    ~ substringOf (toLowerCase m) (toLowerCase token)
    /\ ~ substringOf (toLowerCase token) (toLowerCase m).

(** The characters [-], [_] and [.], which the cleaner keeps as separators
    of model designations. *)
Definition isSeparator (c : ascii) : bool :=
  Ascii.eqb c "-" || Ascii.eqb c "_" || Ascii.eqb c ".".

(** An IP address: a dotted quad of valid octets, or an IPv6 address in the
    full or in the compressed form. *)
Definition isIPAddress (t : jsstring) : Prop :=
  validIPv4 t \/ fullIPv6 t \/ compressedIPv6 t.

(** A string of [lo] to [hi] characters of the class [p]. *)
Definition run (p : ascii -> bool) (lo hi : nat) (s : jsstring) : Prop :=
  lo <= length s <= hi /\ Forall (fun c => p c = true) s.

(** [parts] with the characters [seps] between them, in turn. *)
Fixpoint interleave (parts : list jsstring) (seps : list ascii) : jsstring :=
  match parts with
  | [] => []
  | p :: parts' =>
      match seps with
      | [] => p
      | c :: seps' => p ++ c :: interleave parts' seps'
      end
  end.

(** A MAC address: six pairs of hexadecimal digits with a colon or a
    hyphen after each of the first five, or three groups of four
    hexadecimal digits separated by dots. *)
Definition isMACAddress (t : jsstring) : Prop :=
  (exists pairs seps,
     length pairs = 6 /\ length seps = 5
     /\ Forall (run isHex 2 2) pairs
     /\ Forall (fun c => c = ":"%char \/ c = "-"%char) seps
     /\ t = interleave pairs seps)
  \/ (exists groups,
        length groups = 3 /\ Forall (run isHex 4 4) groups
        /\ t = joinWith "." groups).

(** The date shapes in digits: one or two digits twice and two to four
    digits, separated by [sep]; and four digits and one or two digits
    twice, separated by hyphens. *)
Definition numericDate (sep : ascii) (t : jsstring) : Prop :=
  exists a b c,
    run isDigit 1 2 a /\ run isDigit 1 2 b /\ run isDigit 2 4 c
    /\ t = joinWith sep [a; b; c].

Definition isoDate (t : jsstring) : Prop :=
  exists y m d,
    run isDigit 4 4 y /\ run isDigit 1 2 m /\ run isDigit 1 2 d
    /\ t = joinWith "-" [y; m; d].

(** The date shape with a month: the three letters of a month in either
    case, white space, one or two digits, a comma or none, white space and
    two to four digits. *)
Definition monthDate (t : jsstring) : Prop :=
  exists name month space1 day comma space2 year,
    In month monthNames /\ toLowerCase name = toLowerCase month
    /\ space1 <> [] /\ Forall (fun c => isSpace c = true) space1
    /\ run isDigit 1 2 day
    /\ (comma = [] \/ comma = [","%char])
    /\ space2 <> [] /\ Forall (fun c => isSpace c = true) space2
    /\ run isDigit 2 4 year
    /\ t = name ++ space1 ++ day ++ comma ++ space2 ++ year.

Definition isDateShape (t : jsstring) : Prop :=
  numericDate "/" t \/ numericDate "-" t \/ isoDate t \/ numericDate "." t
  \/ monthDate t.

(** The characters of a model designation the cleaner looks for: the
    letters and digits of ASCII and the separators. *)
Definition isModelChar (c : ascii) : bool := isAlnum c || isSeparator c.

(** The letters among the code units below 256: those of ASCII, the
    ordinal indicators, the micro sign and the letters from U+00C0 on,
    without the multiplication and the division sign. *)
Definition isLetter (c : ascii) : bool :=
  let n := code c in
  isAlpha c || (n =? 170) || (n =? 181) || (n =? 186)
  || ((192 <=? n) && negb (n =? 215) && negb (n =? 247)).

(** A token free of the noise the cleaner removes. *)
Definition noiseFree (manufacturerNames : list jsstring) (t : jsstring)
    : Prop :=
  ~ isIPAddress t
  /\ ~ isMACAddress t
  /\ ~ isDateShape t
  /\ noManufacturerIn manufacturerNames t
  /\ ~ In (toLowerCase t) COMMON_WORDS
  /\ existsb isModelChar t = true.

(** The same as the specification words it: the vocabulary rule in one
    direction only (the token neither equals a vocabulary entry nor occurs
    in one), and a token that is not pure punctuation for having a letter
    or a digit. *)
Definition noiseFreeAsStated (manufacturerNames : list jsstring)
    (t : jsstring) : Prop :=
  ~ isIPAddress t
  /\ ~ isMACAddress t
  /\ ~ isDateShape t
  /\ (forall m, In m manufacturerNames ->
        ~ substringOf (toLowerCase t) (toLowerCase m))
  /\ ~ In (toLowerCase t) COMMON_WORDS
  /\ existsb (fun c => isLetter c || isDigit c) t = true.

Definition digitChars : list ascii := str "0123456789".

Section EditDistance.

Context {char : Type} {host : HostChar char}.

(** Edit scripts with unit costs: [edits s t n] when [s] is turned into [t]
    by [n] insertions, deletions and substitutions of single characters. *)
Inductive edits : list char -> list char -> nat -> Prop :=
| edits_nil : edits [] [] 0
| edits_keep : forall a s t n, edits s t n -> edits (a :: s) (a :: t) n
| edits_substitute : forall a b s t n,
    edits s t n -> edits (a :: s) (b :: t) (S n)
| edits_delete : forall a s t n, edits s t n -> edits (a :: s) t (S n)
| edits_insert : forall b s t n, edits s t n -> edits s (b :: t) (S n).

(** [d] is the Levenshtein distance of [s] and [t]: the length of a
    shortest edit script. *)
Definition isLevenshtein (s t : list char) (d : nat) : Prop :=
  edits s t d /\ forall n, edits s t n -> d <= n.

(** The distance as the minimum over the last step of a script. *)
Fixpoint distance (s : list char) : list char -> nat :=
  match s with
  | [] => fun t => length t
  | a :: s' =>
      fix against (t : list char) : nat :=
        match t with
        | [] => S (length s')
        | b :: t' =>
            Nat.min (distance s' t' + (if sameChar a b then 0 else 1))
                    (Nat.min (S (distance s' t)) (S (against t')))
        end
  end.

(** The prefixes of a string, shortest first. *)
Fixpoint prefixes (s : list char) : list (list char) :=
  [] :: match s with
        | [] => []
        | c :: s' => map (cons c) (prefixes s')
        end.

End EditDistance.

(** The sum of a list of integers. *)
Definition Zsum (l : list Z) : Z := fold_right Z.add 0%Z l.

(** The row has a model cell that is present and not empty. *)
Definition hasModel (modelColumnIndex : option nat) (row : list jsstring)
    : bool :=
  truthy (cellAt row modelColumnIndex).

(** [name] is the header at position [i] and at no position before it. *)
Definition firstPosition (headers : list jsstring) (name : jsstring)
    (i : nat) : Prop :=
  nth_error headers i = Some name
  /\ forall j, j < i -> nth_error headers j <> Some name.

(** A count column is selected and is one of the headers. *)
Definition countColumnSelected (headers : list jsstring)
    (selection : ColumnSelection) : Prop :=
  exists name,
    countColumn selection = Some name /\ name <> [] /\ In name headers.

(** The row has a non-empty cell at position [j]. *)
Definition hasModelAt (j : nat) (row : list jsstring) : bool :=
  match nth_error row j with
  | Some (_ :: _) => true
  | _ => false
  end.

(** [counted] is the list of the rows with a non-empty model cell: the rows
    with a non-empty cell at the position of the selected model column
    among the headers, and no row when no model column is selected or the
    selected one is not among the headers. *)
Definition modelRows (headers : list jsstring) (selection : ColumnSelection)
    (rows counted : list (list jsstring)) : Prop :=
  (exists name j,
     modelColumn selection = Some name /\ firstPosition headers name j
     /\ counted = filter (hasModelAt j) rows)
  \/ ((forall name, modelColumn selection = Some name -> ~ In name headers)
      /\ counted = []).

(** Up to this magnitude every integer is a double. *)
Definition exactLimit : Z := 2 ^ 53.

(** Two facts of the doubles: the sum of two integers is computed exactly
    where the terms and the sum are within [exactLimit], and the only falsy
    integer is [0]. *)
Definition integersExact (number : Type) `{HostNumber number} : Prop :=
  (forall a b : Z,
     (Z.abs a <= exactLimit)%Z -> (Z.abs b <= exactLimit)%Z ->
     (Z.abs (a + b) <= exactLimit)%Z ->
     numberAdd (numberOfInt a) (numberOfInt b) = numberOfInt (a + b)%Z)
  /\ (forall a : Z, numberIsFalsy (numberOfInt a) = true -> a = 0%Z).

(** The cell [cell] of a row reads as the integer [value]: [parseFloat]
    gives the number of [value], or it gives a falsy number ([NaN] for a cell
    that is not a number, or a zero) and [value] is [0]. *)
Definition readsAs {number : Type} `{HostNumber number}
    (cell : option jsstring) (value : Z) : Prop :=
  let parsed :=
    parseFloat match cell with
               | Some text => text
               | None => str "undefined"
               end in
  if numberIsFalsy parsed then value = 0%Z else parsed = numberOfInt value.

(** What a row with a model adds to the count of its label. *)
Definition contribution {number : Type} `{HostNumber number}
    (countColumnIndex : option nat) (row : list jsstring) : number :=
  match countColumnIndex with
  | Some _ => countValueOf row countColumnIndex
  | None => numberOfInt 1
  end.

(** The aggregation over the integers, where a row with a model adds
    [value row] to its label. *)
Definition getZ (m : list (jsstring * Z)) (key : jsstring) : Z :=
  match mapGet m key with
  | Some z => z
  | None => 0%Z
  end.

Definition tallyRow (modelColumnIndex : option nat)
    (value : list jsstring -> Z) (m : list (jsstring * Z))
    (row : list jsstring) : list (jsstring * Z) :=
  match cellAt row modelColumnIndex with
  | Some model =>
      if nonEmpty model then mapSet m model (getZ m model + value row)%Z
      else m
  | None => m
  end.

(** The entries of an integer map as numbers of the host. *)
Definition asNumbers {number : Type} `{HostNumber number}
    (m : list (jsstring * Z)) : list (jsstring * number) :=
  map (fun entry => (fst entry, numberOfInt (snd entry))) m.

(** The sum of the magnitudes of the counts of an integer map. *)
Definition absSum (m : list (jsstring * Z)) : Z :=
  Zsum (map (fun entry => Z.abs (snd entry)) m).

(** A host for the examples: the doubles as far as the examples reach,
    which is the integers, [NaN] and the two infinities, with the sums the
    doubles give on them for integers within [exactLimit].  Its
    [parseFloat] reads a string of decimal digits and the words [Infinity]
    and [-Infinity]; the other cells of the examples are empty or words
    that do not start with a number, which the host parses to [NaN]. *)
Inductive exampleNumber : Type :=
  | Integer (z : Z)
  | PosInfinity
  | NegInfinity
  | NaN.

Definition exampleAdd (x y : exampleNumber) : exampleNumber :=
  match x, y with
  | NaN, _ | _, NaN => NaN
  | PosInfinity, NegInfinity | NegInfinity, PosInfinity => NaN
  | PosInfinity, _ | _, PosInfinity => PosInfinity
  | NegInfinity, _ | _, NegInfinity => NegInfinity
  | Integer a, Integer b => Integer (a + b)
  end.

Definition exampleIsFalsy (x : exampleNumber) : bool :=
  match x with
  | Integer z => Z.eqb z 0
  | NaN => true
  | _ => false
  end.

Definition exampleParseFloat (s : jsstring) : exampleNumber :=
  if nonEmpty s && forallb isDigit s then Integer (Z.of_nat (decimalValue s))
  else if jsstring_eqb s (str "Infinity") then PosInfinity
  else if jsstring_eqb s (str "-Infinity") then NegInfinity
  else NaN.

#[export] Instance exampleHost : HostNumber exampleNumber := {
  numberAdd := exampleAdd;
  numberOfInt := Integer;
  numberIsFalsy := exampleIsFalsy;
  parseFloat := exampleParseFloat
}.

(* ================================================================== *)
(** * Part II: properties                                              *)
(* ================================================================== *)

(** ** Numbers *)

Lemma Qgtb_spec (a b : Q) : Qgtb a b = true <-> (b < a)%Q.
Proof.
  unfold Qgtb. rewrite negb_true_iff.
  split; intro H.
  - apply Qnot_le_lt. intro Hle.
    apply Qle_bool_iff in Hle. congruence.
  - destruct (Qle_bool a b) eqn:E; [|reflexivity].
    apply Qle_bool_iff in E. exfalso. exact (Qlt_not_le _ _ H E).
Qed.

Lemma Qgtb_false (a b : Q) : Qgtb a b = false <-> (a <= b)%Q.
Proof.
  unfold Qgtb. rewrite negb_false_iff. apply Qle_bool_iff.
Qed.

(** ** The matcher *)

Lemma jsstring_eqb_eq (a b : jsstring) : jsstring_eqb a b = true <-> a = b.
Proof.
  unfold jsstring_eqb. destruct (list_eq_dec ascii_dec a b); split; congruence.
Qed.

Lemma jsstring_eqb_neq (a b : jsstring) : jsstring_eqb a b = false <-> a <> b.
Proof.
  unfold jsstring_eqb. destruct (list_eq_dec ascii_dec a b); split; congruence.
Qed.

Lemma exactPass_none (verkadaModels : list VerkadaModel)
    (names : list jsstring) (modelLower : jsstring) :
  exactPass verkadaModels names modelLower = None <->
  noExactMatch verkadaModels names modelLower.
Proof.
  unfold noExactMatch. induction verkadaModels as [|m rest IH]; simpl.
  - split; [intros _ x [] | reflexivity].
  - destruct (jsstring_eqb _ modelLower) eqn:E.
    + apply jsstring_eqb_eq in E. split; [discriminate|].
      intro H. exfalso. exact (H m (or_introl eq_refl) E).
    + apply jsstring_eqb_neq in E. rewrite IH. split.
      * intros H x [<-|Hx]; [exact E | exact (H x Hx)].
      * intros H x Hx. apply H. right. exact Hx.
Qed.

Lemma exactPass_first (pre post : list VerkadaModel) (e : VerkadaModel)
    (names : list jsstring) (modelLower : jsstring) :
  noExactMatch pre names modelLower ->
  toLowerCase (preprocessModelForMatching (modelName e) names) = modelLower ->
  exactPass (pre ++ e :: post) names modelLower =
  Some (mkMatchInfo exact (Some (modelName e)) (Some 1%Q) (Some e)
          (Some (getCompatibilityType (Some e)))).
Proof.
  intros Hpre He. induction pre as [|m pre IH]; simpl.
  - apply jsstring_eqb_eq in He. rewrite He. reflexivity.
  - assert (Hm : jsstring_eqb
                   (toLowerCase (preprocessModelForMatching (modelName m) names))
                   modelLower = false).
    { apply jsstring_eqb_neq. apply Hpre. left. reflexivity. }
    rewrite Hm. apply IH. intros x Hx. apply Hpre. right. exact Hx.
Qed.

Lemma potentialPass_snoc (pre : list VerkadaModel) (e : VerkadaModel)
    (names : list jsstring) (modelLower : jsstring) :
  potentialPass (pre ++ [e]) names modelLower =
  potentialStep names modelLower (potentialPass pre names modelLower) e.
Proof.
  unfold potentialPass. rewrite fold_left_app. reflexivity.
Qed.

Lemma nonEmpty_trim (s : jsstring) :
  nonEmpty (trim s) = true -> nonEmpty s = true.
Proof.
  destruct s; [discriminate | reflexivity].
Qed.

Lemma findBestMatch_no_exact (verkadaModels : list VerkadaModel)
    (cleanedModel : jsstring) (names : list jsstring) :
  nonEmpty (trim cleanedModel) = true ->
  noExactMatch verkadaModels names (trim (toLowerCase cleanedModel)) ->
  findBestMatch verkadaModels cleanedModel names =
  classify (potentialPass verkadaModels names (trim (toLowerCase cleanedModel))).
Proof.
  intros Hne Hno. unfold findBestMatch.
  rewrite Hne, (nonEmpty_trim _ Hne). simpl.
  apply exactPass_none in Hno. rewrite Hno. reflexivity.
Qed.

(** C9.  With an empty catalog the matcher answers [none] for every label
    and every vocabulary, with no matched name, no similarity, no reference
    entry and no compatibility type.  The function is total, so no call
    raises. *)
Theorem findBestMatch_empty_catalog (cleanedModel : jsstring)
    (manufacturerNames : list jsstring) :
  let result := findBestMatch [] cleanedModel manufacturerNames in
  matchType result = none
  /\ matchedWith result = None
  /\ similarity result = None
  /\ verkadaDetails result = None
  /\ compatibilityType result = None.
Proof.
  unfold findBestMatch.
  destruct (negb (nonEmpty cleanedModel) || negb (nonEmpty (trim cleanedModel)));
    simpl; repeat split; reflexivity.
Qed.

(** C3, as amended.  Without exact match the matcher answers [potential]
    exactly when the similarity tracked at the end of the scan is strictly
    above 0.6: a tracked similarity of exactly 0.6 gives [none], and a
    tracked similarity of 0.60001 gives [potential]. *)
Theorem potential_iff_tracked_above_threshold
    (verkadaModels : list VerkadaModel) (manufacturerNames : list jsstring)
    (cleanedModel : jsstring) :
  nonEmpty (trim cleanedModel) = true ->
  noExactMatch verkadaModels manufacturerNames
    (trim (toLowerCase cleanedModel)) ->
  let tracked :=
    bestSimilarity (potentialPass verkadaModels manufacturerNames
                      (trim (toLowerCase cleanedModel))) in
  let result := findBestMatch verkadaModels cleanedModel manufacturerNames in
  (matchType result = potential <-> (6 # 10 < tracked)%Q)
  /\ ((tracked == 6 # 10)%Q -> matchType result = none)
  /\ ((tracked == 60001 # 100000)%Q -> matchType result = potential).
Proof.
  intros Hne Hno tracked result.
  assert (Hiff : matchType result = potential <-> (6 # 10 < tracked)%Q).
  { unfold result. rewrite (@findBestMatch_no_exact _ _ _ Hne Hno).
    unfold classify. fold tracked.
    destruct (Qgtb tracked (6 # 10)) eqn:E; simpl.
    - apply Qgtb_spec in E. split; [intros _; exact E | reflexivity].
    - apply Qgtb_false in E. split; [discriminate|].
      intro H. exfalso. exact (Qlt_not_le _ _ H E). }
  split; [exact Hiff|]. split.
  - intro Heq. destruct (matchType result) eqn:E; try reflexivity.
    + exfalso. unfold result in E.
      rewrite (@findBestMatch_no_exact _ _ _ Hne Hno) in E.
      unfold classify in E. fold tracked in E.
      destruct (Qgtb tracked (6 # 10)); discriminate.
    + exfalso. destruct Hiff as [H _]. specialize (H eq_refl).
      rewrite Heq in H. exact (Qlt_irrefl _ H).
  - intro Heq. apply Hiff. rewrite Heq. reflexivity.
Qed.

Lemma potential_iff_tracked_above_threshold_witness :
  let label := str "P3245LVE" in
  let catalog := [mkVerkadaModel (str "Axis") (str "P3245-LVE") [] []] in
  let tracked :=
    bestSimilarity (potentialPass catalog [str "Axis"]
                      (trim (toLowerCase label))) in
  let result := findBestMatch catalog label [str "Axis"] in
  (matchType result = potential <-> (6 # 10 < tracked)%Q)
  /\ ((tracked == 6 # 10)%Q -> matchType result = none)
  /\ ((tracked == 60001 # 100000)%Q -> matchType result = potential).
Proof.
  apply (@potential_iff_tracked_above_threshold
           [mkVerkadaModel (str "Axis") (str "P3245-LVE") [] []]
           [str "Axis"] (str "P3245LVE")).
  - vm_compute. reflexivity.
  - apply exactPass_none. vm_compute. reflexivity.
Defined.

(** C3 as stated fails: the first entry of [displacingCatalog] reaches
    similarity 0.9 to the label, the second is contained in the label with
    similarity 0.6 and replaces it, and the matcher answers [none]. *)
Lemma entry_above_threshold_not_potential :
  let label := str "DS2CD2143G" in
  let names := extractManufacturerNames displacingCatalog in
  let modelLower := trim (toLowerCase label) in
  nonEmpty (trim label) = true
  /\ noExactMatch displacingCatalog names modelLower
  /\ (exists e, In e displacingCatalog
                /\ (60001 # 100000 <= entrySimilarity names modelLower e)%Q)
  /\ findBestMatch displacingCatalog label names = noMatch
  /\ matchType (findBestMatch displacingCatalog label names) <> potential.
Proof.
  split; [vm_compute; reflexivity|].
  split; [apply exactPass_none; vm_compute; reflexivity|].
  split; [|split].
  - exists (mkVerkadaModel (str "Hikvision") (str "DS2CD2143H") [] []).
    split; [left; reflexivity|]. vm_compute. discriminate.
  - vm_compute. reflexivity.
  - vm_compute. discriminate.
Qed.

(** ** Characters *)

Lemma allAscii_complete (c : ascii) : In c allAscii.
Proof.
  unfold allAscii. rewrite <- (ascii_nat_embedding c).
  apply in_map. apply in_seq. pose proof (nat_ascii_bounded c). lia.
Qed.

Lemma isSpace_lowerChar (c : ascii) : isSpace (lowerChar c) = isSpace c.
Proof.
  destruct c as [[] [] [] [] [] [] [] []]; reflexivity.
Qed.

(** ** Prefixes and substrings *)

Lemma startsWith_spec (s p : jsstring) :
  startsWith s p = true <-> exists after, s = p ++ after.
Proof.
  revert s. induction p as [|x p IH]; intro s; simpl.
  - destruct s; split; eauto.
  - destruct s as [|y s].
    + split; [discriminate | intros [a Ha]; discriminate].
    + simpl. rewrite andb_true_iff, IH. split.
      * intros [Hxy [a ->]]. apply Ascii.eqb_eq in Hxy. subst y. eauto.
      * intros [a Ha]. injection Ha as -> ->. split; eauto.
        apply Ascii.eqb_refl.
Qed.

Lemma includes_spec (s p : jsstring) :
  includes s p = true <-> substringOf p s.
Proof.
  unfold substringOf. induction s as [|y s IH]; cbn [includes].
  - rewrite orb_false_r, startsWith_spec. split.
    + intros [a Ha]. exists [], a. exact Ha.
    + intros [b [a Ha]]. exists a.
      destruct b; [exact Ha | discriminate].
  - rewrite orb_true_iff, startsWith_spec, IH. split.
    + intros [[a Ha] | [b [a Ha]]].
      * exists [], a. exact Ha.
      * exists (y :: b), a. simpl. rewrite Ha. reflexivity.
    + intros [b [a Ha]]. destruct b as [|z b].
      * left. exists a. exact Ha.
      * right. injection Ha as -> ->. eauto.
Qed.

(** ** Trimming *)

Lemma dropWhile_head (p : ascii -> bool) (c : ascii) (s : jsstring) :
  p c = false -> dropWhile p (c :: s) = c :: s.
Proof.
  intro H. simpl. rewrite H. reflexivity.
Qed.

Lemma trimEnd_snoc (s : jsstring) (c : ascii) :
  trimEnd (s ++ [c]) = if isSpace c then trimEnd s else s ++ [c].
Proof.
  unfold trimEnd. rewrite rev_app_distr. simpl.
  destruct (isSpace c); [reflexivity|].
  simpl. rewrite rev_involutive. reflexivity.
Qed.

Lemma trimStart_clean (s : jsstring) : startsClean s -> trimStart s = s.
Proof.
  intros [-> | [c [s' [-> Hc]]]]; [reflexivity|].
  apply dropWhile_head. exact Hc.
Qed.

Lemma trimEnd_clean (s : jsstring) : endsClean s -> trimEnd s = s.
Proof.
  intros [-> | [s' [c [-> Hc]]]]; [reflexivity|].
  rewrite trimEnd_snoc, Hc. reflexivity.
Qed.

Lemma trimStart_startsClean (s : jsstring) : startsClean (trimStart s).
Proof.
  unfold trimStart. induction s as [|c s IH]; simpl.
  - left. reflexivity.
  - destruct (isSpace c) eqn:E; [exact IH|].
    right. exists c, s. split; [reflexivity | exact E].
Qed.

Lemma trimEnd_endsClean (s : jsstring) : endsClean (trimEnd s).
Proof.
  induction s as [|c s IH] using rev_ind.
  - left. reflexivity.
  - rewrite trimEnd_snoc. destruct (isSpace c) eqn:E; [exact IH|].
    right. exists s, c. split; [reflexivity | exact E].
Qed.

Lemma trimEnd_startsClean (s : jsstring) :
  startsClean s -> startsClean (trimEnd s).
Proof.
  induction s as [|c s IH] using rev_ind; intro H.
  - left. reflexivity.
  - rewrite trimEnd_snoc. destruct (isSpace c) eqn:E; [|exact H].
    apply IH. destruct s as [|d s']; [left; reflexivity|].
    destruct H as [H | [d' [t [H Hd]]]]; [discriminate|].
    injection H as <- _. right. exists d, s'. split; [reflexivity | exact Hd].
Qed.

Lemma trim_clean (s : jsstring) : startsClean s -> endsClean s -> trim s = s.
Proof.
  intros Hs He. unfold trim. rewrite (trimStart_clean s Hs).
  apply trimEnd_clean. exact He.
Qed.

Lemma trim_idempotent (s : jsstring) : trim (trim s) = trim s.
Proof.
  apply trim_clean; unfold trim.
  - apply trimEnd_startsClean. apply trimStart_startsClean.
  - apply trimEnd_endsClean.
Qed.

Lemma dropWhile_toLowerCase (s : jsstring) :
  dropWhile isSpace (toLowerCase s) = toLowerCase (dropWhile isSpace s).
Proof.
  unfold toLowerCase. induction s as [|c s IH]; simpl; [reflexivity|].
  rewrite isSpace_lowerChar. destruct (isSpace c); [exact IH | reflexivity].
Qed.

Lemma trim_toLowerCase (s : jsstring) :
  trim (toLowerCase s) = toLowerCase (trim s).
Proof.
  unfold trim, trimEnd, trimStart.
  rewrite dropWhile_toLowerCase.
  unfold toLowerCase at 1. rewrite <- map_rev.
  fold (toLowerCase (rev (dropWhile isSpace s))).
  rewrite dropWhile_toLowerCase. unfold toLowerCase. rewrite map_rev.
  reflexivity.
Qed.

(** ** The replacement rule of the potential pass *)

Lemma entryIsSubset_spec (names : list jsstring) (cleanedModel : jsstring)
    (e : VerkadaModel) :
  entryIsSubset names (toLowerCase cleanedModel) e = true <->
  containsEitherWay cleanedModel
    (preprocessModelForMatching (modelName e) names).
Proof.
  unfold entryIsSubset, containsEitherWay.
  rewrite orb_true_iff, !includes_spec. tauto.
Qed.

Lemma potentialStep_cases (names : list jsstring) (cleanedModel : jsstring)
    (best : Best) (e : VerkadaModel) :
  (replaces names cleanedModel best e ->
   potentialStep names (toLowerCase cleanedModel) best e
   = candidate names cleanedModel e)
  /\ (~ replaces names cleanedModel best e ->
      potentialStep names (toLowerCase cleanedModel) best e = best).
Proof.
  unfold potentialStep, replaces, candidate, similarityTo, entrySimilarity.
  cbv zeta. rewrite <- entryIsSubset_spec.
  set (modelLower := toLowerCase cleanedModel).
  set (similarity :=
         calculateSimilarity modelLower
           (toLowerCase (preprocessModelForMatching (modelName e) names))).
  destruct (Qgtb similarity (bestSimilarity best)) eqn:E1; cbn [orb].
  - split; [reflexivity|]. intro H. exfalso. apply H. left.
    apply Qgtb_spec. exact E1.
  - destruct (entryIsSubset names modelLower e) eqn:E2; cbn [andb].
    + destruct (Qgtb similarity (1 # 2)) eqn:E3.
      * split; [reflexivity|]. intro H. exfalso. apply H. right.
        split; [reflexivity|]. apply Qgtb_spec. exact E3.
      * split; [|reflexivity]. intros [H|[_ H]].
        -- apply Qgtb_spec in H. congruence.
        -- apply Qgtb_spec in H. congruence.
    + split; [|reflexivity]. intros [H|[H _]].
      * apply Qgtb_spec in H. congruence.
      * discriminate.
Qed.

(** C1.  For a cleaned, non-empty label without exact match the potential
    pass is one left-to-right scan of the catalog over a single tracked
    best that starts at similarity 0 with no entry.  At each entry the
    tracked best is replaced by that entry, similarity included, when the
    entry's similarity is strictly above the tracked one or when one of the
    two cleaned strings is a substring of the other, case aside, and the
    entry's similarity is strictly above 0.5; otherwise the tracked best is
    left as it was.  The answer of the matcher is computed from the tracked
    best after the last entry. *)
Theorem potential_pass_replacement_rule (verkadaModels : list VerkadaModel)
    (manufacturerNames : list jsstring) (cleanedModel : jsstring) :
  trim cleanedModel = cleanedModel ->
  cleanedModel <> [] ->
  noExactMatch verkadaModels manufacturerNames (toLowerCase cleanedModel) ->
  let modelLower := toLowerCase cleanedModel in
  let scan := fun entries => potentialPass entries manufacturerNames modelLower in
  (bestSimilarity (scan []) = 0%Q /\ bestVerkadaModel (scan []) = None)
  /\ (forall pre e post, verkadaModels = pre ++ e :: post ->
        (replaces manufacturerNames cleanedModel (scan pre) e ->
         scan (pre ++ [e]) = candidate manufacturerNames cleanedModel e)
        /\ (~ replaces manufacturerNames cleanedModel (scan pre) e ->
            scan (pre ++ [e]) = scan pre))
  /\ findBestMatch verkadaModels cleanedModel manufacturerNames
     = classify (scan verkadaModels).
Proof.
  intros Htrim Hne Hno modelLower scan.
  assert (Hml : trim (toLowerCase cleanedModel) = modelLower).
  { rewrite trim_toLowerCase, Htrim. reflexivity. }
  split; [split; reflexivity|]. split.
  - intros pre e post _. unfold scan. rewrite potentialPass_snoc.
    apply potentialStep_cases.
  - unfold scan. rewrite <- Hml. apply findBestMatch_no_exact.
    + rewrite Htrim. destruct cleanedModel; [contradiction | reflexivity].
    + rewrite Hml. exact Hno.
Qed.

Lemma potential_pass_replacement_rule_witness :
  let label := str "DS2CD2143G" in
  let scan := fun entries => potentialPass entries [] (toLowerCase label) in
  (bestSimilarity (scan []) = 0%Q /\ bestVerkadaModel (scan []) = None)
  /\ (forall pre e post, displacingCatalog = pre ++ e :: post ->
        (replaces [] label (scan pre) e ->
         scan (pre ++ [e]) = candidate [] label e)
        /\ (~ replaces [] label (scan pre) e ->
            scan (pre ++ [e]) = scan pre))
  /\ findBestMatch displacingCatalog label []
     = classify (scan displacingCatalog).
Proof.
  apply (@potential_pass_replacement_rule displacingCatalog []
           (str "DS2CD2143G")).
  - vm_compute. reflexivity.
  - discriminate.
  - apply exactPass_none. vm_compute. reflexivity.
Defined.

(** ** Splitting and joining *)

Lemma splitRuns_not_nil (b : bool) (s : jsstring) : splitRuns b s <> [].
Proof.
  revert b. induction s as [|c s IH]; intro b; simpl; [discriminate|].
  destruct (isSpace c).
  - destruct b; [apply IH | discriminate].
  - destruct (splitRuns false s); discriminate.
Qed.

Lemma splitRuns_no_space (b : bool) (s : jsstring) :
  Forall (Forall (fun c => isSpace c = false)) (splitRuns b s).
Proof.
  revert b. induction s as [|c s IH]; intro b; simpl.
  - repeat constructor.
  - destruct (isSpace c) eqn:E.
    + destruct b; [apply IH|]. constructor; [constructor | apply IH].
    + specialize (IH false). destruct (splitRuns false s) as [|p ps].
      * repeat constructor. exact E.
      * inversion IH; subst. constructor; [|assumption].
        constructor; assumption.
Qed.

Lemma tokensOf_isToken (s : jsstring) : Forall isToken (tokensOf s).
Proof.
  unfold tokensOf, splitWhitespace.
  pose proof (splitRuns_no_space false s) as H.
  induction H as [|p ps Hp Hps IH]; simpl; [constructor|].
  destruct p as [|c p]; simpl; [exact IH|].
  constructor; [|exact IH]. split; [discriminate | exact Hp].
Qed.

Lemma splitRuns_word (t rest : jsstring) :
  Forall (fun c => isSpace c = false) t ->
  splitRuns false (t ++ rest) =
  match splitRuns false rest with
  | p :: ps => (t ++ p) :: ps
  | [] => [t]
  end.
Proof.
  intro Ht. induction Ht as [|c t Hc Ht IH]; simpl.
  - destruct (splitRuns false rest) eqn:E; [|reflexivity].
    exfalso. exact (splitRuns_not_nil _ _ E).
  - rewrite Hc, IH.
    destruct (splitRuns false rest) eqn:E; [|reflexivity].
    exfalso. exact (splitRuns_not_nil _ _ E).
Qed.

Lemma splitRuns_true_word (c : ascii) (s : jsstring) :
  isSpace c = false -> splitRuns true (c :: s) = splitRuns false (c :: s).
Proof.
  intro H. simpl. rewrite H. reflexivity.
Qed.

Lemma splitRuns_space_first (c : ascii) (s : jsstring) :
  isSpace c = true -> splitRuns false (c :: s) = [] :: splitRuns true s.
Proof.
  intro H. simpl. rewrite H. reflexivity.
Qed.

Lemma join_cons2 (t t2 : jsstring) (rest : list jsstring) :
  join (t :: t2 :: rest) = t ++ " "%char :: join (t2 :: rest).
Proof. reflexivity. Qed.

Lemma join_head (t : jsstring) (rest : list jsstring) (c : ascii)
    (t' : jsstring) :
  t = c :: t' -> exists s, join (t :: rest) = c :: s.
Proof.
  intros ->. destruct rest; simpl; eauto.
Qed.

Lemma tokensOf_join (toks : list jsstring) :
  Forall isToken toks -> tokensOf (join toks) = toks.
Proof.
  intro H. induction H as [|t toks [Hne Hns] Htoks IH]; [reflexivity|].
  destruct toks as [|t2 rest].
  - simpl. unfold tokensOf, splitWhitespace.
    rewrite <- (app_nil_r t) at 1. rewrite (splitRuns_word t [] Hns).
    simpl. rewrite app_nil_r. destruct t; [contradiction | reflexivity].
  - rewrite join_cons2. unfold tokensOf, splitWhitespace.
    rewrite (splitRuns_word t _ Hns).
    rewrite (splitRuns_space_first " " _ eq_refl), app_nil_r.
    inversion Htoks as [|? ? [Hne2 Hns2] _]; subst.
    destruct t2 as [|c t2']; [contradiction|].
    destruct (join_head (c :: t2') rest c t2' eq_refl) as [s Hs].
    rewrite Hs. inversion Hns2; subst.
    rewrite splitRuns_true_word by assumption. rewrite <- Hs.
    destruct t as [|d t']; [contradiction|].
    cbn [filter nonEmpty]. f_equal. exact IH.
Qed.

Lemma join_startsClean (toks : list jsstring) :
  Forall isToken toks -> startsClean (join toks).
Proof.
  intro H. destruct H as [|t toks [Hne Hns] _]; [left; reflexivity|].
  destruct t as [|c t']; [contradiction|].
  destruct (join_head (c :: t') toks c t' eq_refl) as [s Hs].
  right. exists c, s. split; [exact Hs|]. inversion Hns; assumption.
Qed.

Lemma join_endsClean (toks : list jsstring) :
  Forall isToken toks -> endsClean (join toks).
Proof.
  intro H. induction H as [|t toks [Hne Hns] Htoks IH]; [left; reflexivity|].
  destruct toks as [|t2 rest].
  - simpl. destruct (exists_last Hne) as [t' [c ->]].
    right. exists t', c. split; [reflexivity|].
    apply Forall_app in Hns. destruct Hns as [_ Hc]. inversion Hc; assumption.
  - rewrite join_cons2. destruct IH as [IH | [s' [c [IH Hc]]]].
    + exfalso. inversion Htoks as [|? ? [Hne2 _] _]; subst.
      destruct t2 as [|d t2']; [contradiction|].
      destruct (join_head (d :: t2') rest d t2' eq_refl) as [s Hs].
      rewrite Hs in IH. discriminate.
    + right. exists (t ++ " "%char :: s'), c. split; [|exact Hc].
      rewrite IH. rewrite <- app_assoc. reflexivity.
Qed.

Lemma trim_join (toks : list jsstring) :
  Forall isToken toks -> trim (join toks) = join toks.
Proof.
  intro H. apply trim_clean; [apply join_startsClean | apply join_endsClean];
    exact H.
Qed.

Lemma trim_token (t : jsstring) : isToken t -> trim t = t.
Proof.
  intro H. change t with (join [t]). apply trim_join.
  constructor; [exact H | constructor].
Qed.

(** ** Patterns: the derivative matcher decides the language *)

Lemma nullable_lang (r : re) : nullable r = true <-> lang r [].
Proof.
  split.
  - induction r; simpl; intro H; try discriminate.
    + constructor.
    + apply andb_true_iff in H. destruct H as [H1 H2].
      change (@nil ascii) with (@nil ascii ++ []).
      constructor; auto.
    + apply orb_true_iff in H. destruct H as [H | H];
        [apply LAltL | apply LAltR]; auto.
    + constructor.
  - intro H. remember (@nil ascii) as s eqn:Hs.
    induction H; simpl; try reflexivity; try discriminate.
    + apply app_eq_nil in Hs. destruct Hs as [-> ->].
      rewrite IHlang1, IHlang2; reflexivity.
    + rewrite IHlang; [reflexivity | assumption].
    + rewrite IHlang; [apply orb_true_r | assumption].
Qed.

Lemma deriv_sound (c : ascii) (r : re) (s : jsstring) :
  lang (deriv c r) s -> lang r (c :: s).
Proof.
  revert s. induction r as [| |p|r1 IH1 r2 IH2|r1 IH1 r2 IH2|r1 IH1];
    intros s H; simpl in H.
  - inversion H.
  - inversion H.
  - destruct (p c) eqn:E; inversion H; subst. constructor. exact E.
  - destruct (nullable r1) eqn:E.
    + inversion H as [| | | ? ? ? H1 | ? ? ? H1 | |]; subst.
      * inversion H1; subst.
        change (c :: s1 ++ s2) with ((c :: s1) ++ s2).
        constructor; auto.
      * change (c :: s) with ([] ++ c :: s).
        constructor; [apply nullable_lang; exact E | auto].
    + inversion H; subst.
      change (c :: s1 ++ s2) with ((c :: s1) ++ s2).
      constructor; auto.
  - inversion H; subst; [apply LAltL | apply LAltR]; auto.
  - inversion H; subst.
    change (c :: s1 ++ s2) with ((c :: s1) ++ s2).
    constructor; auto.
Qed.

Lemma deriv_complete (c : ascii) (r : re) (w : jsstring) :
  lang r w -> forall s, w = c :: s -> lang (deriv c r) s.
Proof.
  intro H. induction H as [|p d Hd|r1 r2 s1 s2 H1 IH1 H2 IH2
                            |r1 r2 s0 H0 IH0|r1 r2 s0 H0 IH0
                            |r1|r1 s1 s2 H1 IH1 H2 IH2];
    intros s Hw; simpl.
  - discriminate.
  - injection Hw as -> <-. rewrite Hd. constructor.
  - destruct s1 as [|x s1'].
    + simpl in Hw. apply nullable_lang in H1. rewrite H1.
      apply LAltR. apply IH2. exact Hw.
    + injection Hw as -> <-.
      destruct (nullable r1).
      * apply LAltL. constructor; [apply IH1; reflexivity | exact H2].
      * constructor; [apply IH1; reflexivity | exact H2].
  - apply LAltL. auto.
  - apply LAltR. auto.
  - discriminate.
  - destruct s1 as [|x s1'].
    + simpl in Hw. exact (IH2 s Hw).
    + injection Hw as -> <-.
      constructor; [apply IH1; reflexivity | exact H2].
Qed.

Lemma matches_lang (r : re) (s : jsstring) : matches r s = true <-> lang r s.
Proof.
  revert r. induction s as [|c s IH]; intro r; simpl.
  - apply nullable_lang.
  - rewrite IH. split.
    + apply deriv_sound.
    + intro H. exact (deriv_complete c r (c :: s) H s eq_refl).
Qed.

Lemma lang_star_class (p : ascii -> bool) (s : jsstring) :
  Forall (fun c => p c = true) s -> lang (Star (Cls p)) s.
Proof.
  intro H. induction H as [|c s Hc Hs IH]; [constructor|].
  change (c :: s) with ([c] ++ s). constructor; [constructor; exact Hc | exact IH].
Qed.

Lemma lang_star_any (s : jsstring) : lang (Star anyChar) s.
Proof.
  apply lang_star_class. induction s; constructor; auto.
Qed.

Lemma lang_rep_class (p : ascii -> bool) (s : jsstring) :
  Forall (fun c => p c = true) s -> lang (rep (length s) (Cls p)) s.
Proof.
  intro H. induction H as [|c s Hc Hs IH]; simpl; [constructor|].
  change (c :: s) with ([c] ++ s). constructor; [constructor; exact Hc | exact IH].
Qed.

Lemma lang_upTo_class (p : ascii -> bool) (n : nat) (s : jsstring) :
  Forall (fun c => p c = true) s -> length s <= n -> lang (upTo n (Cls p)) s.
Proof.
  intro H. revert n. induction H as [|c s Hc Hs IH]; intros n Hn.
  - destruct n; simpl; [constructor | apply LAltR; constructor].
  - destruct n as [|n]; simpl in *; [lia|].
    apply LAltL. change (c :: s) with ([c] ++ s).
    constructor; [constructor; exact Hc | apply IH; lia].
Qed.

Lemma lang_range_class (p : ascii -> bool) (lo hi : nat) (s : jsstring) :
  Forall (fun c => p c = true) s -> lo <= length s <= hi ->
  lang (range lo hi (Cls p)) s.
Proof.
  intros H [Hlo Hhi]. unfold range.
  rewrite <- (firstn_skipn lo s).
  assert (H1 : Forall (fun c => p c = true) (firstn lo s)).
  { rewrite <- (firstn_skipn lo s) in H. apply Forall_app in H. apply H. }
  assert (H2 : Forall (fun c => p c = true) (skipn lo s)).
  { rewrite <- (firstn_skipn lo s) in H. apply Forall_app in H. apply H. }
  constructor.
  - replace lo with (length (firstn lo s)) at 1
      by (rewrite length_firstn; lia).
    apply lang_rep_class. exact H1.
  - apply lang_upTo_class; [exact H2|]. rewrite length_skipn. lia.
Qed.

Lemma lang_lit (s : jsstring) : lang (lit s) s.
Proof.
  induction s as [|c s IH]; simpl; [constructor|].
  change (c :: s) with ([c] ++ s).
  constructor; [constructor; apply Ascii.eqb_refl | exact IH].
Qed.

Lemma lang_lit_inv (x s : jsstring) : lang (lit x) s -> s = x.
Proof.
  revert s. induction x as [|c x IH]; intros s H; simpl in H.
  - inversion H. reflexivity.
  - inversion H as [| |? ? ? ? H1 H2| | | |]; subst.
    inversion H1 as [|? ? Hc| | | | |]; subst.
    apply Ascii.eqb_eq in Hc. subst. simpl. f_equal. apply IH. exact H2.
Qed.

(** [demands q r] is sound: every word of [r] holds a [q] character. *)
Lemma demands_sound (q : ascii -> bool) (r : re) (s : jsstring) :
  demands q r = true -> lang r s -> existsb q s = true.
Proof.
  intros Hd H. induction H as [|p d Hp|r1 r2 s1 s2 H1 IH1 H2 IH2
                               |r1 r2 s0 H0 IH0|r1 r2 s0 H0 IH0
                               |r1|r1 s1 s2 H1 IH1 H2 IH2];
    cbn [demands] in Hd; try discriminate.
  - cbn [existsb]. rewrite orb_false_r.
    rewrite forallb_forall in Hd. specialize (Hd d (allAscii_complete d)).
    rewrite Hp in Hd. exact Hd.
  - rewrite existsb_app. apply orb_true_iff in Hd.
    destruct Hd as [Hd | Hd]; [rewrite IH1 by exact Hd; reflexivity|].
    rewrite IH2 by exact Hd. apply orb_true_r.
  - apply andb_true_iff in Hd. apply IH0, Hd.
  - apply andb_true_iff in Hd. apply IH0, Hd.
Qed.

Lemma testSearch_class (p : ascii -> bool) (s : jsstring) :
  testSearch (Cls p) s = existsb p s.
Proof.
  unfold testSearch. apply eq_true_iff_eq. rewrite matches_lang. split.
  - apply demands_sound. cbn [demands anyChar].
    apply orb_true_iff. right. apply orb_true_iff. left.
    apply forallb_forall. intros c _. destruct (p c); reflexivity.
  - intro H. apply existsb_exists in H. destruct H as [c [Hin Hc]].
    apply in_split in Hin. destruct Hin as [s1 [s2 ->]].
    constructor; [apply lang_star_any|].
    change (c :: s2) with ([c] ++ s2).
    constructor; [constructor; exact Hc | apply lang_star_any].
Qed.

Lemma lang_star_class_inv (p : ascii -> bool) (s : jsstring) :
  lang (Star (Cls p)) s -> Forall (fun c => p c = true) s.
Proof.
  intro H. remember (Star (Cls p)) as r eqn:Hr.
  induction H as [| | | | | r1 | r1 s1 s2 H1 _ H2 IH2]; try discriminate.
  - constructor.
  - injection Hr as ->. inversion H1; subst. constructor; auto.
Qed.

Lemma testWhole_plus_class (p : ascii -> bool) (s : jsstring) :
  testWhole (plus (Cls p)) s = nonEmpty s && forallb p s.
Proof.
  unfold testWhole, plus. apply eq_true_iff_eq.
  rewrite matches_lang, andb_true_iff, forallb_forall. split.
  - intro H. inversion H as [| |? ? ? ? H1 H2| | | |]; subst.
    inversion H1; subst. split; [reflexivity|].
    apply lang_star_class_inv in H2. rewrite Forall_forall in H2.
    intros x [<- | Hx]; auto.
  - intros [Hne Hall]. destruct s as [|c s]; [discriminate|].
    change (c :: s) with ([c] ++ s). constructor.
    + constructor. apply Hall. left. reflexivity.
    + apply lang_star_class. apply Forall_forall. intros x Hx.
      apply Hall. right. exact Hx.
Qed.

(** ** The token cleaner *)

Lemma isToken_nonEmpty (t : jsstring) : isToken t -> nonEmpty t = true.
Proof.
  intros [Hne _]. destruct t; [contradiction | reflexivity].
Qed.

(** On a token the filter callback decides by [verdict] and pushes the
    entry of the verdict. *)
Lemma filterToken_verdict (names removed : list jsstring) (t : jsstring) :
  isToken t ->
  filterToken names removed t = (isKept names t, removed ++ removedFor names t).
Proof.
  intro Ht. unfold filterToken, isKept, removedFor, verdict.
  rewrite (trim_token t Ht), (isToken_nonEmpty t Ht).
  unfold ALNUM_RE, PUNCTUATION_RE.
  rewrite testSearch_class, testWhole_plus_class, (isToken_nonEmpty t Ht).
  cbn [negb andb].
  destruct (IP_ADDRESS_PATTERN t || IPV6_PATTERN t); [reflexivity|].
  destruct (MAC_ADDRESS_PATTERN t); [reflexivity|].
  destruct (existsb (fun pattern => pattern t) DATE_PATTERNS); [reflexivity|].
  destruct (matchesManufacturer names (toLowerCase t)); [reflexivity|].
  destruct (testWhole ALPHABETIC_RE t && (2 <? length t)
            && existsb (jsstring_eqb (toLowerCase t)) COMMON_WORDS);
    [reflexivity|].
  destruct (existsb isAlnum t); [rewrite app_nil_r; reflexivity|].
  destruct (forallb punctClass t); [reflexivity|].
  rewrite app_nil_r. reflexivity.
Qed.

Lemma filterTokens_spec (names removed toks : list jsstring) :
  Forall isToken toks ->
  filterTokens names removed toks =
  (filter (isKept names) toks, removed ++ flat_map (removedFor names) toks).
Proof.
  intro H. revert removed.
  induction H as [|t toks Ht Htoks IH]; intro removed; simpl.
  - rewrite app_nil_r. reflexivity.
  - rewrite (filterToken_verdict names removed t Ht), IH.
    rewrite <- app_assoc. reflexivity.
Qed.

Lemma Forall_filter_isToken (f : jsstring -> bool) (toks : list jsstring) :
  Forall isToken toks -> Forall isToken (filter f toks).
Proof.
  intro H. induction H as [|t toks Ht Htoks IH]; simpl; [constructor|].
  destruct (f t); [constructor|]; assumption.
Qed.

(** The cleaner keeps the tokens without verdict, joined by single spaces,
    and lists the entries of the others in the order of the tokens. *)
Lemma cleanModelData_spec (input : jsstring) (names : list jsstring) :
  cleanModelData input names =
  mkCleaningResult (trim input)
    (join (filter (isKept names) (tokensOf (trim input))))
    (flat_map (removedFor names) (tokensOf (trim input))).
Proof.
  unfold cleanModelData. destruct input as [|c input]; [reflexivity|].
  cbn [nonEmpty negb].
  rewrite (filterTokens_spec names [] _ (tokensOf_isToken _)).
  rewrite trim_join; [reflexivity|].
  apply Forall_filter_isToken, tokensOf_isToken.
Qed.

Lemma cleaned_tokens (input : jsstring) (names : list jsstring) :
  tokensOf (cleaned (cleanModelData input names)) =
  filter (isKept names) (tokensOf (trim input)).
Proof.
  rewrite cleanModelData_spec. cbn [cleaned].
  apply tokensOf_join, Forall_filter_isToken, tokensOf_isToken.
Qed.

Lemma cleaned_trimmed (input : jsstring) (names : list jsstring) :
  trim (cleaned (cleanModelData input names)) =
  cleaned (cleanModelData input names).
Proof.
  rewrite cleanModelData_spec. cbn [cleaned].
  apply trim_join, Forall_filter_isToken, tokensOf_isToken.
Qed.

Lemma removed_token_entry (names : list jsstring) (toks : list jsstring)
    (t : jsstring) (r : Reason) :
  In t toks -> verdict names t = Some r ->
  In (removedEntry r t) (flat_map (removedFor names) toks)
  /\ ~ In t (filter (isKept names) toks).
Proof.
  intros Hin Hv. split.
  - apply in_flat_map. exists t. split; [exact Hin|].
    unfold removedFor. rewrite Hv. left. reflexivity.
  - intro H. apply filter_In in H. destruct H as [_ H].
    unfold isKept in H. rewrite Hv in H. discriminate.
Qed.

Lemma filter_flat_map_length (names toks : list jsstring) :
  length (filter (isKept names) toks)
  + length (flat_map (removedFor names) toks) = length toks.
Proof.
  induction toks as [|t toks IH]; [reflexivity|].
  cbn [filter flat_map]. rewrite length_app.
  unfold isKept at 1, removedFor at 1.
  destruct (verdict names t); cbn [length]; lia.
Qed.

(** C10.  The tokens of the trimmed input are partitioned by the cleaner.
    There is a verdict on tokens such that the tokens of the cleaned output
    are the tokens without reason, unchanged and in their order, and
    [removedElements] holds one entry ["<reason>: <token>"] for each
    removed token, in the order of the tokens; the two counts add up to
    the number of tokens. *)
Theorem cleanModelData_partitions_tokens (input : jsstring)
    (manufacturerNames : list jsstring) :
  let result := cleanModelData input manufacturerNames in
  let tokens := tokensOf (trim input) in
  exists reasonOf : jsstring -> option Reason,
    tokensOf (cleaned result)
    = filter (fun t => match reasonOf t with None => true | Some _ => false end)
        tokens
    /\ removedElements result
       = flat_map (fun t => match reasonOf t with
                            | None => []
                            | Some r => [reasonLabel r ++ str ": " ++ t]
                            end) tokens
    /\ length (tokensOf (cleaned result)) + length (removedElements result)
       = length tokens.
Proof.
  intros result tokens. exists (verdict manufacturerNames).
  unfold result. rewrite cleaned_tokens.
  rewrite cleanModelData_spec. cbn [removedElements].
  split; [reflexivity|]. split; [reflexivity|].
  apply filter_flat_map_length.
Qed.

(** C2.  A cleaned, non-empty label that equals, case aside, the cleaned
    name of a catalog entry is matched exactly: the matcher returns
    [exact] with similarity 1.0, the uncleaned name of the first such entry
    in catalog order, that entry and its compatibility type. *)
Theorem exact_match_first_entry (manufacturerNames : list jsstring)
    (pre post : list VerkadaModel) (e : VerkadaModel)
    (cleanedModel : jsstring) :
  trim cleanedModel = cleanedModel ->
  cleanedModel <> [] ->
  toLowerCase (preprocessModelForMatching (modelName e) manufacturerNames)
  = toLowerCase cleanedModel ->
  (forall m, In m pre ->
     toLowerCase (preprocessModelForMatching (modelName m) manufacturerNames)
     <> toLowerCase cleanedModel) ->
  findBestMatch (pre ++ e :: post) cleanedModel manufacturerNames
  = mkMatchInfo exact (Some (modelName e)) (Some 1%Q) (Some e)
      (Some (getCompatibilityType (Some e))).
Proof.
  intros Htrim Hne He Hpre. unfold findBestMatch.
  rewrite Htrim, trim_toLowerCase, Htrim.
  destruct cleanedModel as [|c cleanedModel]; [contradiction|].
  cbn [nonEmpty negb orb].
  rewrite (exactPass_first pre post e manufacturerNames _ Hpre He).
  reflexivity.
Qed.

Lemma exact_match_first_entry_witness :
  let names := [str "Axis"] in
  let label := cleaned (cleanModelData (str "Axis p3245-lve 10.0.0.1") names) in
  let first := mkVerkadaModel (str "Axis") (str "P3245-LVE") [] [] in
  findBestMatch
    ([mkVerkadaModel (str "Axis") (str "Q1615") [] []]
     ++ first
     :: [mkVerkadaModel (str "Axis") (str "P3245-LVE") []
           (str "RTSP support only")])
    label names
  = mkMatchInfo exact (Some (str "P3245-LVE")) (Some 1%Q) (Some first)
      (Some ONVIF_S).
Proof.
  apply (exact_match_first_entry [str "Axis"]
           [mkVerkadaModel (str "Axis") (str "Q1615") [] []]
           [mkVerkadaModel (str "Axis") (str "P3245-LVE") []
              (str "RTSP support only")]
           (mkVerkadaModel (str "Axis") (str "P3245-LVE") [] [])
           (cleaned (cleanModelData (str "Axis p3245-lve 10.0.0.1")
                       [str "Axis"]))).
  - apply cleaned_trimmed.
  - vm_compute. discriminate.
  - vm_compute. reflexivity.
  - intros m [<- | []]. vm_compute. discriminate.
Defined.

(** ** Address patterns *)

Lemma digit_cases (c : ascii) : isDigit c = true -> In c digitChars.
Proof.
  destruct c as [[] [] [] [] [] [] [] []]; simpl; intro H;
    try discriminate; tauto.
Qed.

Ltac enum_digit H :=
  apply digit_cases in H; simpl in H;
  repeat (destruct H as [<- | H]); [..| contradiction].

Lemma octet_matches (o : jsstring) : validOctet o -> matches octetRe o = true.
Proof.
  intros [[Hlo Hhi] [Hd Hv]]. apply Nat.leb_le in Hv.
  destruct o as [|a [|b [|c [|]]]]; simpl in Hlo, Hhi; try lia.
  - inversion Hd as [|? ? Ha _]; subst.
    enum_digit Ha; reflexivity.
  - inversion Hd as [|? ? Ha Hd1]; subst.
    inversion Hd1 as [|? ? Hb _]; subst.
    enum_digit Ha; enum_digit Hb; reflexivity.
  - inversion Hd as [|? ? Ha Hd1]; subst.
    inversion Hd1 as [|? ? Hb Hd2]; subst.
    inversion Hd2 as [|? ? Hc _]; subst.
    enum_digit Ha; enum_digit Hb; enum_digit Hc;
      vm_compute in Hv; first [discriminate Hv | vm_compute; reflexivity].
Qed.

Lemma validIPv4_matches (t : jsstring) :
  validIPv4 t -> IP_ADDRESS_PATTERN t = true.
Proof.
  intros [a [b [c [d [Ha [Hb [Hc [Hd ->]]]]]]]].
  unfold IP_ADDRESS_PATTERN, testWhole. apply matches_lang.
  apply octet_matches, matches_lang in Ha, Hb, Hc, Hd.
  unfold IP_ADDRESS_RE.
  replace (joinWith "." [a; b; c; d])
    with (((a ++ ["."%char]) ++ (b ++ ["."%char]) ++ (c ++ ["."%char]) ++ [])
          ++ d)
    by (simpl; repeat rewrite <- app_assoc; reflexivity).
  assert (Hdot : lang (chr ".") ["."%char]) by (constructor; reflexivity).
  repeat (constructor; try assumption).
Qed.

Lemma hexGroup_lang (g : jsstring) :
  hexGroup g -> lang (range 1 4 hexDigit) g.
Proof.
  intros [Hlen Hhex]. apply lang_range_class; assumption.
Qed.

Lemma fullIPv6_matches (t : jsstring) : fullIPv6 t -> IPV6_PATTERN t = true.
Proof.
  intros [gs [Hlen [Hgs ->]]].
  unfold IPV6_PATTERN. apply orb_true_iff. left. apply orb_true_iff. left.
  unfold testWhole. apply matches_lang.
  destruct gs as [|g1 [|g2 [|g3 [|g4 [|g5 [|g6 [|g7 [|g8 [|]]]]]]]]];
    try discriminate.
  repeat match goal with
         | H : Forall hexGroup (_ :: _) |- _ =>
             let Hg := fresh "Hg" in
             inversion H as [|? ? Hg ?]; subst; clear H;
             apply hexGroup_lang in Hg
         end.
  unfold IPV6_FULL_RE.
  replace (joinWith ":" [g1; g2; g3; g4; g5; g6; g7; g8])
    with (((g1 ++ [":"%char]) ++ (g2 ++ [":"%char]) ++ (g3 ++ [":"%char])
           ++ (g4 ++ [":"%char]) ++ (g5 ++ [":"%char]) ++ (g6 ++ [":"%char])
           ++ (g7 ++ [":"%char]) ++ []) ++ g8)
    by (simpl; repeat rewrite <- app_assoc; reflexivity).
  assert (Hcolon : lang (chr ":") [":"%char]) by (constructor; reflexivity).
  cbn [rep].
  repeat (apply LSeq; try assumption). constructor.
Qed.

Lemma verdict_IP (names : list jsstring) (t : jsstring) :
  IP_ADDRESS_PATTERN t || IPV6_PATTERN t = true -> verdict names t = Some IP.
Proof.
  intro H. unfold verdict. rewrite H. reflexivity.
Qed.

(** C5, as amended.  Every token that is a dotted quad of four octets in
    0..255, an IPv6 address in the full form of eight groups, or one of the
    two literals [::1] and [::] is dropped by the cleaner and recorded in
    [removedElements] with the reason [IP]. *)
Theorem ip_tokens_removed (input : jsstring)
    (manufacturerNames : list jsstring) (token : jsstring) :
  In token (tokensOf (trim input)) ->
  validIPv4 token \/ fullIPv6 token
  \/ token = str "::1" \/ token = str "::" ->
  let result := cleanModelData input manufacturerNames in
  In (str "IP: " ++ token) (removedElements result)
  /\ ~ In token (tokensOf (cleaned result)).
Proof.
  intros Hin Hip result. unfold result.
  rewrite cleaned_tokens. rewrite cleanModelData_spec. cbn [removedElements].
  apply (removed_token_entry manufacturerNames _ token IP Hin).
  apply verdict_IP. apply orb_true_iff.
  destruct Hip as [H | [H | [-> | ->]]].
  - left. apply validIPv4_matches. exact H.
  - right. apply fullIPv6_matches. exact H.
  - right. reflexivity.
  - right. reflexivity.
Qed.

Lemma ip_tokens_removed_witness :
  let result :=
    cleanModelData (str "AXS-4000 192.168.1.5 2023-04-01 Axis") [str "Axis"] in
  In (str "IP: 192.168.1.5") (removedElements result)
  /\ ~ In (str "192.168.1.5") (tokensOf (cleaned result)).
Proof.
  apply (ip_tokens_removed (str "AXS-4000 192.168.1.5 2023-04-01 Axis")
           [str "Axis"] (str "192.168.1.5")).
  - vm_compute. right. left. reflexivity.
  - left. exists (str "192"), (str "168"), (str "1"), (str "5").
    unfold validOctet.
    repeat split; try (vm_compute; lia); try reflexivity;
      repeat constructor.
Defined.

(** C5 as stated fails on the compressed form: [fe80::1] is a compressed
    IPv6 address, and the cleaner keeps it and records nothing. *)
Lemma compressed_ipv6_kept :
  let result := cleanModelData (str "cam fe80::1") [str "Axis"] in
  In (str "fe80::1") (tokensOf (trim (str "cam fe80::1")))
  /\ compressedIPv6 (str "fe80::1")
  /\ ~ In (str "IP: fe80::1") (removedElements result)
  /\ In (str "fe80::1") (tokensOf (cleaned result)).
Proof.
  split; [vm_compute; right; left; reflexivity|].
  split.
  - exists [str "fe80"], [str "1"]. split; [simpl; lia|].
    split; [|split; [|reflexivity]].
    + repeat constructor; simpl; lia.
    + repeat constructor; simpl; lia.
  - split.
    + vm_compute. intros [].
    + vm_compute. right. left. reflexivity.
Qed.

(** ** Patterns and shapes *)

Lemma lang_Seq_inv (r1 r2 : re) (s : jsstring) :
  lang (Seq r1 r2) s ->
  exists s1 s2, s = s1 ++ s2 /\ lang r1 s1 /\ lang r2 s2.
Proof.
  intro H. inversion H; subst. eauto.
Qed.

Lemma lang_Cls_inv (p : ascii -> bool) (s : jsstring) :
  lang (Cls p) s -> exists c, s = [c] /\ p c = true.
Proof.
  intro H. inversion H; subst. eauto.
Qed.

Lemma lang_chr_inv (c : ascii) (s : jsstring) : lang (chr c) s -> s = [c].
Proof.
  intro H. apply lang_Cls_inv in H. destruct H as [d [-> Hd]].
  apply Ascii.eqb_eq in Hd. subst d. reflexivity.
Qed.

Lemma lang_Eps_inv (s : jsstring) : lang Eps s -> s = [].
Proof.
  intro H. inversion H. reflexivity.
Qed.

Lemma lang_Alt_inv (r1 r2 : re) (s : jsstring) :
  lang (Alt r1 r2) s -> lang r1 s \/ lang r2 s.
Proof.
  intro H. inversion H; subst; [left | right]; assumption.
Qed.

Lemma lang_rep_class_inv (p : ascii -> bool) (n : nat) (s : jsstring) :
  lang (rep n (Cls p)) s -> run p n n s.
Proof.
  revert s. induction n as [|n IH]; intros s H; cbn [rep] in H.
  - apply lang_Eps_inv in H. subst s. split; [simpl; lia | constructor].
  - apply lang_Seq_inv in H. destruct H as [s1 [s2 [-> [H1 H2]]]].
    apply lang_Cls_inv in H1. destruct H1 as [c [-> Hc]].
    destruct (IH s2 H2) as [Hlen Hall].
    split; [simpl; lia | constructor; assumption].
Qed.

Lemma lang_upTo_class_inv (p : ascii -> bool) (n : nat) (s : jsstring) :
  lang (upTo n (Cls p)) s -> run p 0 n s.
Proof.
  revert s. induction n as [|n IH]; intros s H; cbn [upTo] in H.
  - apply lang_Eps_inv in H. subst s. split; [simpl; lia | constructor].
  - apply lang_Alt_inv in H. destruct H as [H | H].
    + apply lang_Seq_inv in H. destruct H as [s1 [s2 [-> [H1 H2]]]].
      apply lang_Cls_inv in H1. destruct H1 as [c [-> Hc]].
      destruct (IH s2 H2) as [Hlen Hall].
      split; [simpl; lia | constructor; assumption].
    + apply lang_Eps_inv in H. subst s. split; [simpl; lia | constructor].
Qed.

Lemma lang_range_class_inv (p : ascii -> bool) (lo hi : nat) (s : jsstring) :
  lo <= hi -> lang (range lo hi (Cls p)) s -> run p lo hi s.
Proof.
  intros Hle H. unfold range in H.
  apply lang_Seq_inv in H. destruct H as [s1 [s2 [-> [H1 H2]]]].
  apply lang_rep_class_inv in H1. apply lang_upTo_class_inv in H2.
  destruct H1 as [Hl1 Ha1], H2 as [Hl2 Ha2].
  split; [rewrite length_app; lia | apply Forall_app; split; assumption].
Qed.

Lemma run_lang (p : ascii -> bool) (lo hi : nat) (s : jsstring) :
  run p lo hi s -> lang (range lo hi (Cls p)) s.
Proof.
  intros [Hlen Hall]. apply lang_range_class; assumption.
Qed.

Lemma run_lang_rep (p : ascii -> bool) (n : nat) (s : jsstring) :
  run p n n s -> lang (rep n (Cls p)) s.
Proof.
  intros [Hlen Hall]. replace n with (length s) by lia.
  apply lang_rep_class. exact Hall.
Qed.

(** The words of a pattern taken apart at its sequences. *)
Ltac invert_lang :=
  repeat match goal with
         | H : lang (Seq _ _) _ |- _ =>
             apply lang_Seq_inv in H; destruct H as [? [? [-> [? ?]]]]
         | H : lang (chr _) _ |- _ => apply lang_chr_inv in H; subst
         | H : lang Eps _ |- _ => apply lang_Eps_inv in H; subst
         | H : lang (Cls _) _ |- _ =>
             apply lang_Cls_inv in H; destruct H as [? [-> ?]]
         end.

Lemma between_code (lo hi c : ascii) :
  between lo hi c = true -> code lo <= code c <= code hi.
Proof.
  unfold between. intro H. apply andb_true_iff in H. destruct H as [H1 H2].
  apply Nat.leb_le in H1, H2. lia.
Qed.

Lemma isDigit_code (c : ascii) : isDigit c = true <-> 48 <= code c <= 57.
Proof.
  unfold isDigit. cbv zeta. rewrite andb_true_iff, !Nat.leb_le. reflexivity.
Qed.

Lemma decimalValue1 (a : ascii) : decimalValue [a] = code a - 48.
Proof. unfold decimalValue. simpl. lia. Qed.

Lemma decimalValue2 (a b : ascii) :
  decimalValue [a; b] = 10 * (code a - 48) + (code b - 48).
Proof. unfold decimalValue. simpl. lia. Qed.

Lemma decimalValue3 (a b c : ascii) :
  decimalValue [a; b; c]
  = 100 * (code a - 48) + 10 * (code b - 48) + (code c - 48).
Proof. unfold decimalValue. simpl. lia. Qed.

Lemma octet_shape (o : jsstring) : lang octetRe o -> validOctet o.
Proof.
  intro H. unfold octetRe, alts, opt in H.
  assert (H2 : code "2" = 50) by reflexivity.
  assert (H5 : code "5" = 53) by reflexivity.
  assert (H0 : code "0" = 48) by reflexivity.
  assert (H1 : code "1" = 49) by reflexivity.
  assert (H4 : code "4" = 52) by reflexivity.
  assert (H9 : code "9" = 57) by reflexivity.
  apply lang_Alt_inv in H. destruct H as [H | H];
    [|apply lang_Alt_inv in H; destruct H as [H | H]].
  - apply lang_Seq_inv in H. destruct H as [s1 [s2 [-> [Ha Hb]]]].
    apply lang_lit_inv in Ha. subst s1.
    apply lang_Cls_inv in Hb. destruct Hb as [c [-> Hc]].
    apply between_code in Hc.
    change (str "25" ++ [c]) with ["2"%char; "5"%char; c].
    split; [simpl; lia|]. split.
    + repeat constructor. apply isDigit_code. lia.
    + rewrite decimalValue3. lia.
  - invert_lang.
    repeat match goal with
           | Hb : between _ _ _ = true |- _ => apply between_code in Hb
           end.
    simpl. split; [simpl; lia|]. split.
    + repeat constructor; apply isDigit_code; lia.
    + rewrite decimalValue3. lia.
  - apply lang_Seq_inv in H. destruct H as [s1 [s2 [-> [Ha Hb]]]].
    apply lang_Seq_inv in Hb. destruct Hb as [s3 [s4 [-> [Hb Hc]]]].
    apply lang_Cls_inv in Hb. destruct Hb as [b [-> Hb]].
    apply between_code in Hb.
    apply lang_Alt_inv in Ha. apply lang_Alt_inv in Hc.
    destruct Ha as [Ha | Ha], Hc as [Hc | Hc];
      repeat match goal with
             | Hx : lang (Cls _) _ |- _ =>
                 apply lang_Cls_inv in Hx; destruct Hx as [? [-> Hx]];
                 apply between_code in Hx
             | Hx : lang Eps _ |- _ => apply lang_Eps_inv in Hx; subst
             end;
      simpl; (split; [simpl; lia|]); (split;
        [repeat constructor; apply isDigit_code; lia
        |rewrite ?decimalValue3, ?decimalValue2, ?decimalValue1; lia]).
Qed.

Lemma octet_matches_iff (o : jsstring) : lang octetRe o <-> validOctet o.
Proof.
  split; [apply octet_shape|].
  intro H. apply matches_lang. apply octet_matches. exact H.
Qed.

Lemma validIPv4_shape (t : jsstring) :
  IP_ADDRESS_PATTERN t = true -> validIPv4 t.
Proof.
  unfold IP_ADDRESS_PATTERN, testWhole. intro H. apply matches_lang in H.
  unfold IP_ADDRESS_RE in H. cbn [rep] in H. invert_lang.
  repeat match goal with
         | Ho : lang octetRe _ |- _ => apply octet_shape in Ho
         end.
  match goal with
  | |- validIPv4 (((?a ++ _) ++ (?b ++ _) ++ (?c ++ _) ++ []) ++ ?d) =>
      exists a, b, c, d
  end.
  repeat (split; [assumption|]).
  simpl. repeat rewrite <- app_assoc. reflexivity.
Qed.

Lemma hexGroup_shape (g : jsstring) :
  lang (range 1 4 hexDigit) g -> hexGroup g.
Proof.
  intro H. apply (lang_range_class_inv isHex 1 4) in H; [exact H | lia].
Qed.

Lemma IPV6_shape (t : jsstring) :
  IPV6_PATTERN t = true -> fullIPv6 t \/ compressedIPv6 t.
Proof.
  unfold IPV6_PATTERN, testWhole. intro H.
  apply orb_true_iff in H. destruct H as [H | H];
    [apply orb_true_iff in H; destruct H as [H | H]|];
    apply matches_lang in H.
  - left. unfold IPV6_FULL_RE in H. cbn [rep] in H. invert_lang.
    repeat match goal with
           | Hg : lang (range 1 4 hexDigit) _ |- _ => apply hexGroup_shape in Hg
           end.
    match goal with
    | |- fullIPv6 (((?g1 ++ _) ++ (?g2 ++ _) ++ (?g3 ++ _) ++ (?g4 ++ _)
                    ++ (?g5 ++ _) ++ (?g6 ++ _) ++ (?g7 ++ _) ++ []) ++ ?g8) =>
        exists [g1; g2; g3; g4; g5; g6; g7; g8]
    end.
    split; [reflexivity|]. split.
    + repeat (apply Forall_cons; [assumption|]). apply Forall_nil.
    + simpl. repeat rewrite <- app_assoc. reflexivity.
  - right. apply lang_lit_inv in H. subst t.
    exists [], [str "1"]. split; [simpl; lia|]. split; [constructor|].
    split; [|reflexivity].
    repeat constructor; simpl; lia.
  - right. apply lang_lit_inv in H. subst t.
    exists [], []. split; [simpl; lia|]. split; [constructor|].
    split; [constructor | reflexivity].
Qed.

(** The IP patterns hold of the IP addresses only. *)
Lemma not_IP_rejected (t : jsstring) :
  ~ isIPAddress t -> IP_ADDRESS_PATTERN t || IPV6_PATTERN t = false.
Proof.
  intro H. apply orb_false_iff. split.
  - destruct (IP_ADDRESS_PATTERN t) eqn:E; [|reflexivity].
    exfalso. apply H. left. apply validIPv4_shape. exact E.
  - destruct (IPV6_PATTERN t) eqn:E; [|reflexivity].
    exfalso. apply H. right. apply IPV6_shape. exact E.
Qed.

Lemma compressedIPv6_colons (t : jsstring) :
  compressedIPv6 t -> includes t (str "::") = true.
Proof.
  intros [before [after [_ [_ [_ ->]]]]]. apply includes_spec.
  exists (joinWith ":" before), (joinWith ":" after). reflexivity.
Qed.

Lemma not_IP_by_test (t : jsstring) :
  IP_ADDRESS_PATTERN t = false -> IPV6_PATTERN t = false ->
  includes t (str "::") = false -> ~ isIPAddress t.
Proof.
  intros H4 H6 Hc [H | [H | H]].
  - apply validIPv4_matches in H. congruence.
  - apply fullIPv6_matches in H. congruence.
  - apply compressedIPv6_colons in H. congruence.
Qed.

Lemma macSeparator_cases (c : ascii) :
  Ascii.eqb c ":" || Ascii.eqb c "-" = true <-> c = ":"%char \/ c = "-"%char.
Proof.
  rewrite orb_true_iff, !Ascii.eqb_eq. reflexivity.
Qed.

Lemma MAC_shape (t : jsstring) : MAC_ADDRESS_PATTERN t = true -> isMACAddress t.
Proof.
  unfold MAC_ADDRESS_PATTERN, testWhole. intro H.
  apply orb_true_iff in H. destruct H as [H | H]; apply matches_lang in H.
  - left. unfold MAC_PAIRS_RE in H.
    remember (rep 2 hexDigit) as pair eqn:Hpair. cbn [rep] in H.
    invert_lang. try subst pair.
    repeat match goal with
           | Hg : lang (rep 2 hexDigit) _ |- _ =>
               apply (lang_rep_class_inv isHex 2) in Hg
           | Hc : _ = true |- _ => apply macSeparator_cases in Hc
           end.
    match goal with
    | |- exists pairs seps, _ /\ _ /\ _ /\ _
           /\ ((?p1 ++ [?c1]) ++ (?p2 ++ [?c2]) ++ (?p3 ++ [?c3])
               ++ (?p4 ++ [?c4]) ++ (?p5 ++ [?c5]) ++ []) ++ ?p6 = _ =>
        exists [p1; p2; p3; p4; p5; p6], [c1; c2; c3; c4; c5]
    end.
    split; [reflexivity|]. split; [reflexivity|]. split; [|split].
    + repeat (apply Forall_cons; [assumption|]). apply Forall_nil.
    + repeat (apply Forall_cons; [assumption|]). apply Forall_nil.
    + simpl. repeat rewrite <- app_assoc. reflexivity.
  - right. unfold MAC_DOTTED_RE in H.
    remember (rep 4 hexDigit) as group eqn:Hgroup. cbn [rep] in H.
    invert_lang. try subst group.
    repeat match goal with
           | Hg : lang (rep 4 hexDigit) _ |- _ =>
               apply (lang_rep_class_inv isHex 4) in Hg
           end.
    match goal with
    | |- exists groups, _ /\ _ /\ ((?g1 ++ _) ++ (?g2 ++ _) ++ []) ++ ?g3 = _ =>
        exists [g1; g2; g3]
    end.
    split; [reflexivity|]. split.
    + repeat (apply Forall_cons; [assumption|]). apply Forall_nil.
    + simpl. repeat rewrite <- app_assoc. reflexivity.
Qed.

Lemma MAC_matches (t : jsstring) : isMACAddress t -> MAC_ADDRESS_PATTERN t = true.
Proof.
  unfold MAC_ADDRESS_PATTERN, testWhole.
  intros [[pairs [seps [Hl [Hs [Hp [Hsep ->]]]]]] | [groups [Hl [Hg ->]]]];
    apply orb_true_iff; [left | right]; apply matches_lang.
  - destruct pairs as [|p1 [|p2 [|p3 [|p4 [|p5 [|p6 [|]]]]]]];
      try discriminate.
    destruct seps as [|c1 [|c2 [|c3 [|c4 [|c5 [|]]]]]]; try discriminate.
    repeat match goal with
           | H : Forall _ (_ :: _) |- _ =>
               let Hx := fresh "Hx" in
               inversion H as [|? ? Hx ?]; subst; clear H
           end.
    repeat match goal with
           | H : run isHex 2 2 _ |- _ => apply run_lang_rep in H
           | H : _ = ":"%char \/ _ = "-"%char |- _ =>
               apply macSeparator_cases in H;
               apply (LCls (fun c => Ascii.eqb c ":" || Ascii.eqb c "-")) in H
           end.
    unfold MAC_PAIRS_RE.
    replace (interleave [p1; p2; p3; p4; p5; p6] [c1; c2; c3; c4; c5])
      with (((p1 ++ [c1]) ++ (p2 ++ [c2]) ++ (p3 ++ [c3]) ++ (p4 ++ [c4])
             ++ (p5 ++ [c5]) ++ []) ++ p6)
      by (simpl; repeat rewrite <- app_assoc; reflexivity).
    apply LSeq; [|assumption].
    repeat (apply (LSeq (Seq (rep 2 hexDigit) _));
            [apply LSeq; assumption|]).
    apply LEps.
  - destruct groups as [|g1 [|g2 [|g3 [|]]]]; try discriminate.
    repeat match goal with
           | H : Forall _ (_ :: _) |- _ =>
               let Hx := fresh "Hx" in
               inversion H as [|? ? Hx ?]; subst; clear H
           end.
    repeat match goal with
           | H : run isHex 4 4 _ |- _ => apply run_lang_rep in H
           end.
    assert (Hdot : lang (chr ".") ["."%char]) by (constructor; reflexivity).
    unfold MAC_DOTTED_RE.
    replace (joinWith "." [g1; g2; g3])
      with (((g1 ++ ["."%char]) ++ (g2 ++ ["."%char]) ++ []) ++ g3)
      by (simpl; repeat rewrite <- app_assoc; reflexivity).
    apply LSeq; [|assumption].
    repeat (apply (LSeq (Seq (rep 4 hexDigit) _));
            [apply LSeq; assumption|]).
    apply LEps.
Qed.

Lemma numericDate_shape (sep : ascii) (t : jsstring) :
  testWhole (dateDMY sep) t = true -> numericDate sep t.
Proof.
  unfold testWhole. intro H. apply matches_lang in H.
  unfold dateDMY in H. invert_lang.
  match goal with
  | |- numericDate _ (?a ++ _ ++ ?b ++ _ ++ ?c) => exists a, b, c
  end.
  repeat match goal with
         | Hd : lang (range _ _ digit) _ |- _ =>
             apply (lang_range_class_inv isDigit) in Hd; [|lia]
         end.
  repeat (split; [assumption|]). reflexivity.
Qed.

Lemma numericDate_matches (sep : ascii) (t : jsstring) :
  numericDate sep t -> testWhole (dateDMY sep) t = true.
Proof.
  intros [a [b [c [Ha [Hb [Hc ->]]]]]]. unfold testWhole. apply matches_lang.
  apply run_lang in Ha, Hb, Hc.
  assert (Hsep : lang (chr sep) [sep])
    by (constructor; apply Ascii.eqb_refl).
  unfold dateDMY.
  change (joinWith sep [a; b; c]) with (a ++ [sep] ++ b ++ [sep] ++ c).
  repeat (apply LSeq; [assumption|]). assumption.
Qed.

Lemma isoDate_shape (t : jsstring) : testWhole dateISO t = true -> isoDate t.
Proof.
  unfold testWhole. intro H. apply matches_lang in H.
  unfold dateISO in H. invert_lang.
  match goal with
  | |- isoDate (?y ++ _ ++ ?m ++ _ ++ ?d) => exists y, m, d
  end.
  repeat match goal with
         | Hd : lang (range _ _ digit) _ |- _ =>
             apply (lang_range_class_inv isDigit) in Hd; [|lia]
         | Hd : lang (rep 4 digit) _ |- _ =>
             apply (lang_rep_class_inv isDigit) in Hd
         end.
  repeat (split; [assumption|]). reflexivity.
Qed.

Lemma isoDate_matches (t : jsstring) : isoDate t -> testWhole dateISO t = true.
Proof.
  intros [y [m [d [Hy [Hm [Hd ->]]]]]]. unfold testWhole. apply matches_lang.
  apply run_lang_rep in Hy. apply run_lang in Hm, Hd.
  assert (Hsep : lang (chr "-") ["-"%char]) by (constructor; reflexivity).
  unfold dateISO.
  change (joinWith "-" [y; m; d]) with (y ++ ["-"%char] ++ m ++ ["-"%char] ++ d).
  repeat (apply LSeq; [assumption|]). assumption.
Qed.

Lemma lang_alts_inv (rs : list re) (s : jsstring) :
  lang (alts rs) s -> exists r, In r rs /\ lang r s.
Proof.
  induction rs as [|r rs IH]; intro H; cbn [alts] in H.
  - inversion H.
  - destruct rs as [|r' rs].
    + exists r. split; [left; reflexivity | exact H].
    + apply lang_Alt_inv in H. destruct H as [H | H].
      * exists r. split; [left; reflexivity | exact H].
      * destruct (IH H) as [x [Hx Hl]]. exists x.
        split; [right; exact Hx | exact Hl].
Qed.

Lemma lang_litI_inv (m s : jsstring) :
  lang (litI m) s -> toLowerCase s = toLowerCase m.
Proof.
  revert s. induction m as [|c m IH]; intros s H; cbn [litI] in H.
  - apply lang_Eps_inv in H. subst s. reflexivity.
  - apply lang_Seq_inv in H. destruct H as [s1 [s2 [-> [H1 H2]]]].
    apply lang_Cls_inv in H1. destruct H1 as [x [-> Hx]].
    apply Ascii.eqb_eq in Hx. simpl. rewrite Hx.
    f_equal. exact (IH s2 H2).
Qed.

Lemma lang_plus_class_inv (p : ascii -> bool) (s : jsstring) :
  lang (plus (Cls p)) s -> s <> [] /\ Forall (fun c => p c = true) s.
Proof.
  unfold plus. intro H.
  apply lang_Seq_inv in H. destruct H as [s1 [s2 [-> [H1 H2]]]].
  apply lang_Cls_inv in H1. destruct H1 as [c [-> Hc]].
  apply lang_star_class_inv in H2.
  split; [discriminate | constructor; assumption].
Qed.

Lemma monthDate_shape (t : jsstring) :
  testWhole dateMonth t = true -> monthDate t.
Proof.
  unfold testWhole. intro H. apply matches_lang in H.
  unfold dateMonth in H.
  apply lang_Seq_inv in H. destruct H as [name [r1 [-> [Hname H]]]].
  apply lang_Seq_inv in H. destruct H as [space1 [r2 [-> [Hs1 H]]]].
  apply lang_Seq_inv in H. destruct H as [day [r3 [-> [Hday H]]]].
  apply lang_Seq_inv in H. destruct H as [comma [r4 [-> [Hcomma H]]]].
  apply lang_Seq_inv in H. destruct H as [space2 [year [-> [Hs2 Hyear]]]].
  apply lang_alts_inv in Hname. destruct Hname as [r [Hr Hname]].
  apply in_map_iff in Hr. destruct Hr as [month [<- Hmonth]].
  apply lang_litI_inv in Hname.
  apply lang_plus_class_inv in Hs1, Hs2.
  apply (lang_range_class_inv isDigit) in Hday; [|lia].
  apply (lang_range_class_inv isDigit) in Hyear; [|lia].
  exists name, month, space1, day, comma, space2, year.
  split; [exact Hmonth|]. split; [exact Hname|].
  split; [apply Hs1|]. split; [apply Hs1|]. split; [exact Hday|].
  split.
  { unfold opt in Hcomma. apply lang_Alt_inv in Hcomma.
    destruct Hcomma as [Hc | Hc];
      [right; apply lang_chr_inv in Hc | left; apply lang_Eps_inv in Hc];
      exact Hc. }
  split; [apply Hs2|]. split; [apply Hs2|]. split; [exact Hyear|].
  reflexivity.
Qed.

Lemma monthDate_space (t : jsstring) : monthDate t -> existsb isSpace t = true.
Proof.
  intros [name [month [space1 [day [comma [space2 [year
           [_ [_ [Hne [Hs [_ [_ [_ [_ [_ ->]]]]]]]]]]]]]]]].
  destruct space1 as [|c space1]; [contradiction|].
  inversion Hs as [|? ? Hc _]; subst.
  rewrite existsb_app. apply orb_true_iff. right.
  simpl. rewrite Hc. reflexivity.
Qed.

(** The date patterns hold of the date shapes only. *)
Lemma date_shape (t : jsstring) :
  existsb (fun pattern => pattern t) DATE_PATTERNS = true -> isDateShape t.
Proof.
  unfold DATE_PATTERNS. cbn [existsb]. rewrite orb_false_r. intro H.
  apply orb_true_iff in H. destruct H as [H | H];
    [|apply orb_true_iff in H; destruct H as [H | H];
      [|apply orb_true_iff in H; destruct H as [H | H];
        [|apply orb_true_iff in H; destruct H as [H | H]]]].
  - left. apply numericDate_shape. exact H.
  - right. left. apply numericDate_shape. exact H.
  - right. right. left. apply isoDate_shape. exact H.
  - right. right. right. left. apply numericDate_shape. exact H.
  - right. right. right. right. apply monthDate_shape. exact H.
Qed.

Lemma not_date_rejected (t : jsstring) :
  ~ isDateShape t -> existsb (fun pattern => pattern t) DATE_PATTERNS = false.
Proof.
  intro H. destruct (existsb _ DATE_PATTERNS) eqn:E; [|reflexivity].
  exfalso. apply H. apply date_shape. exact E.
Qed.

Lemma not_MAC_rejected (t : jsstring) :
  ~ isMACAddress t -> MAC_ADDRESS_PATTERN t = false.
Proof.
  intro H. destruct (MAC_ADDRESS_PATTERN t) eqn:E; [|reflexivity].
  exfalso. apply H. apply MAC_shape. exact E.
Qed.

Lemma not_MAC_by_test (t : jsstring) :
  MAC_ADDRESS_PATTERN t = false -> ~ isMACAddress t.
Proof.
  intros H Hm. apply MAC_matches in Hm. congruence.
Qed.

Lemma not_date_by_test (t : jsstring) :
  existsb (fun pattern => pattern t) DATE_PATTERNS = false ->
  existsb isSpace t = false -> ~ isDateShape t.
Proof.
  unfold DATE_PATTERNS. cbn [existsb]. rewrite orb_false_r. intros H Hs.
  apply orb_false_iff in H. destruct H as [H1 H].
  apply orb_false_iff in H. destruct H as [H2 H].
  apply orb_false_iff in H. destruct H as [H3 H].
  apply orb_false_iff in H. destruct H as [H4 H5].
  intros [Hd | [Hd | [Hd | [Hd | Hd]]]].
  - apply numericDate_matches in Hd. congruence.
  - apply numericDate_matches in Hd. congruence.
  - apply isoDate_matches in Hd. congruence.
  - apply numericDate_matches in Hd. congruence.
  - apply monthDate_space in Hd. congruence.
Qed.

(** ** Vocabulary, stoplist and punctuation rules *)

Lemma substringOf_refl (s : jsstring) : substringOf s s.
Proof.
  exists [], []. rewrite app_nil_r. reflexivity.
Qed.

Lemma not_substringOf (p s : jsstring) :
  includes s p = false -> ~ substringOf p s.
Proof.
  intros H Hsub. apply includes_spec in Hsub. congruence.
Qed.

Lemma matchesManufacturer_false (names : list jsstring) (t : jsstring) :
  noManufacturerIn names t ->
  matchesManufacturer names (toLowerCase t) = false.
Proof.
  intro H. unfold matchesManufacturer.
  destruct (existsb _ names) eqn:E; [|reflexivity].
  exfalso. apply existsb_exists in E. destruct E as [m [Hm Hc]].
  destruct (H m Hm) as [H1 H2].
  apply orb_true_iff in Hc. destruct Hc as [Hc | Hc].
  - apply orb_true_iff in Hc. destruct Hc as [Hc | Hc].
    + apply jsstring_eqb_eq in Hc. apply H1. rewrite Hc.
      apply substringOf_refl.
    + apply H1. apply includes_spec. exact Hc.
  - apply H2. apply includes_spec. exact Hc.
Qed.

Lemma noManufacturerIn_by_test (names : list jsstring) (t : jsstring) :
  matchesManufacturer names (toLowerCase t) = false ->
  noManufacturerIn names t.
Proof.
  unfold matchesManufacturer. intros H m Hm.
  assert (Hc : jsstring_eqb (toLowerCase m) (toLowerCase t)
               || includes (toLowerCase t) (toLowerCase m)
               || includes (toLowerCase m) (toLowerCase t) = false).
  { destruct (_ || _ || _) eqn:E; [|reflexivity].
    assert (existsb
              (fun manufacturer =>
                 jsstring_eqb (toLowerCase manufacturer) (toLowerCase t)
                 || includes (toLowerCase t) (toLowerCase manufacturer)
                 || includes (toLowerCase manufacturer) (toLowerCase t))
              names = true) as Hex.
    { apply existsb_exists. exists m. split; assumption. }
    congruence. }
  apply orb_false_iff in Hc. destruct Hc as [Hc H2].
  apply orb_false_iff in Hc. destruct Hc as [_ H1].
  split; apply not_substringOf; assumption.
Qed.

Lemma not_stoplisted (w : jsstring) :
  ~ In w COMMON_WORDS -> existsb (jsstring_eqb w) COMMON_WORDS = false.
Proof.
  intro H. destruct (existsb _ COMMON_WORDS) eqn:E; [|reflexivity].
  exfalso. apply existsb_exists in E. destruct E as [x [Hx Heq]].
  apply jsstring_eqb_eq in Heq. subst. exact (H Hx).
Qed.

Lemma not_stoplisted_by_test (w : jsstring) :
  existsb (jsstring_eqb w) COMMON_WORDS = false -> ~ In w COMMON_WORDS.
Proof.
  intros H Hin.
  assert (existsb (jsstring_eqb w) COMMON_WORDS = true) as Hex.
  { apply existsb_exists. exists w. split; [exact Hin|].
    apply jsstring_eqb_eq. reflexivity. }
  congruence.
Qed.

Lemma separator_not_punctClass (c : ascii) :
  isSeparator c = true -> punctClass c = false.
Proof.
  unfold isSeparator, punctClass. intro H.
  destruct (Ascii.eqb c "-"); [rewrite !orb_true_r; reflexivity|].
  destruct (Ascii.eqb c "_"); [rewrite !orb_true_r; reflexivity|].
  destruct (Ascii.eqb c "."); [rewrite !orb_true_r; reflexivity|].
  discriminate.
Qed.

(** A token with a character of a model designation passes the last two
    rules. *)
Lemma modelChar_kept (t : jsstring) :
  existsb isModelChar t = true ->
  existsb isAlnum t = true \/ forallb punctClass t = false.
Proof.
  induction t as [|c t IH]; cbn [existsb forallb]; [discriminate|].
  intro H. apply orb_true_iff in H. destruct H as [H | H].
  - unfold isModelChar in H. apply orb_true_iff in H. destruct H as [H | H].
    + left. rewrite H. reflexivity.
    + right. rewrite (separator_not_punctClass c H). reflexivity.
  - destruct (IH H) as [IH1 | IH2].
    + left. rewrite IH1. apply orb_true_r.
    + right. rewrite IH2. apply andb_false_r.
Qed.

Lemma verdict_noiseFree (names : list jsstring) (t : jsstring) :
  noiseFree names t -> verdict names t = None.
Proof.
  intros [Hip [Hmac [Hdate [Hman [Hcommon Hchar]]]]].
  unfold verdict.
  rewrite (not_IP_rejected t Hip), (not_MAC_rejected t Hmac),
    (not_date_rejected t Hdate), (matchesManufacturer_false names t Hman),
    (not_stoplisted _ Hcommon), andb_false_r.
  destruct (modelChar_kept t Hchar) as [H | H]; rewrite H; [reflexivity|].
  destruct (existsb isAlnum t); reflexivity.
Qed.

Lemma filter_all_kept (names toks : list jsstring) :
  (forall t, In t toks -> verdict names t = None) ->
  filter (isKept names) toks = toks
  /\ flat_map (removedFor names) toks = [].
Proof.
  induction toks as [|t toks IH]; intro H; [split; reflexivity|].
  destruct IH as [IH1 IH2]. { intros x Hx. apply H. right. exact Hx. }
  cbn [filter flat_map]. unfold isKept at 1, removedFor at 1.
  rewrite (H t (or_introl eq_refl)), IH1, IH2. split; reflexivity.
Qed.

(** C7, as amended.  When no token of the input is an IP or MAC address or
    a date shape, equals, contains or occurs in a vocabulary entry (case
    aside), is a stoplisted word or consists of characters other than the
    letters and digits of ASCII, [-], [_] and [.] only, the cleaner returns
    the tokens of the input joined by single spaces and an empty
    [removedElements]. *)
Theorem noise_free_unchanged (input : jsstring)
    (manufacturerNames : list jsstring) :
  (forall t, In t (tokensOf (trim input)) -> noiseFree manufacturerNames t) ->
  cleanModelData input manufacturerNames
  = mkCleaningResult (trim input) (join (tokensOf (trim input))) [].
Proof.
  intro H. rewrite cleanModelData_spec.
  destruct (filter_all_kept manufacturerNames (tokensOf (trim input)))
    as [H1 H2].
  { intros t Ht. apply verdict_noiseFree, H, Ht. }
  rewrite H1, H2. reflexivity.
Qed.

Lemma noise_free_unchanged_witness :
  cleanModelData (str "  AXS-4000   -  rev.B ") [str "Hikvision"]
  = mkCleaningResult (str "AXS-4000   -  rev.B") (str "AXS-4000 - rev.B") [].
Proof.
  apply (noise_free_unchanged (str "  AXS-4000   -  rev.B ")
           [str "Hikvision"]).
  intros t Ht. vm_compute in Ht.
  destruct Ht as [<- | [<- | [<- | []]]];
    (refine (conj _ (conj _ (conj _ (conj _ (conj _ _)))));
     [ apply not_IP_by_test; reflexivity
     | apply not_MAC_by_test; reflexivity
     | apply not_date_by_test; reflexivity
     | apply noManufacturerIn_by_test; reflexivity
     | apply not_stoplisted_by_test; reflexivity
     | reflexivity ]).
Defined.

(** C7 as stated fails twice.  The token [AxisCam9] neither equals the
    vocabulary entry [Axis] nor occurs in it, and the cleaner removes it
    because the entry occurs in the token.  The token of the one letter
    U+00DF, the sharp s, is no punctuation, and the cleaner removes it as
    punctuation because the letter is not one of ASCII. *)
Lemma token_containing_manufacturer_removed :
  (let input := str "AxisCam9" in
   let names := [str "Axis"] in
   (forall t, In t (tokensOf (trim input)) -> noiseFreeAsStated names t)
   /\ cleanModelData input names
      = mkCleaningResult (str "AxisCam9") [] [str "Manufacturer: AxisCam9"]
   /\ cleanModelData input names
      <> mkCleaningResult (trim input) (join (tokensOf (trim input))) [])
  /\ (let input := [ascii_of_nat 223] in
      (forall t, In t (tokensOf (trim input)) -> noiseFreeAsStated [] t)
      /\ cleanModelData input []
         = mkCleaningResult input [] [str "Punctuation: " ++ input]
      /\ cleanModelData input []
         <> mkCleaningResult (trim input) (join (tokensOf (trim input))) []).
Proof.
  split; (split; [|split]).
  - intros t Ht. vm_compute in Ht. destruct Ht as [<- | []].
    refine (conj _ (conj _ (conj _ (conj _ (conj _ _)))));
      [ apply not_IP_by_test; reflexivity
      | apply not_MAC_by_test; reflexivity
      | apply not_date_by_test; reflexivity
      | intros m [<- | []]; apply not_substringOf; reflexivity
      | apply not_stoplisted_by_test; reflexivity
      | reflexivity ].
  - vm_compute. reflexivity.
  - vm_compute. discriminate.
  - intros t Ht. vm_compute in Ht. destruct Ht as [<- | []].
    refine (conj _ (conj _ (conj _ (conj _ (conj _ _)))));
      [ apply not_IP_by_test; reflexivity
      | apply not_MAC_by_test; reflexivity
      | apply not_date_by_test; reflexivity
      | intros m []
      | apply not_stoplisted_by_test; reflexivity
      | reflexivity ].
  - vm_compute. reflexivity.
  - vm_compute. discriminate.
Qed.

Lemma punctClass_intro (c : ascii) :
  isAlnum c = false -> isSpace c = false -> isSeparator c = false ->
  punctClass c = true.
Proof.
  destruct c as [[] [] [] [] [] [] [] []]; simpl; intros;
    try reflexivity; discriminate.
Qed.

Lemma no_alnum_existsb (t : jsstring) :
  Forall (fun c => isAlnum c = false) t -> existsb isAlnum t = false.
Proof.
  intro H. induction H as [|c t Hc Ht IH]; simpl; [reflexivity|].
  rewrite Hc, IH. reflexivity.
Qed.

(** A pattern all of whose words hold a letter or a digit rejects a string
    without letters and digits. *)
Lemma demands_alnum_rejects (r : re) (t : jsstring) :
  demands isAlnum r = true -> existsb isAlnum t = false ->
  testWhole r t = false.
Proof.
  intros Hd Ht. unfold testWhole. destruct (matches r t) eqn:E; [|reflexivity].
  apply matches_lang in E. rewrite (demands_sound isAlnum r t Hd E) in Ht.
  discriminate.
Qed.

Lemma lit_rejects (x t : jsstring) : t <> x -> testWhole (lit x) t = false.
Proof.
  intro H. unfold testWhole. destruct (matches (lit x) t) eqn:E; [|reflexivity].
  apply matches_lang, lang_lit_inv in E. contradiction.
Qed.

Lemma verdict_punctuation (names : list jsstring) (t : jsstring) :
  isToken t ->
  Forall (fun c => isAlnum c = false /\ isSeparator c = false) t ->
  t <> str "::" ->
  noManufacturerIn names t ->
  verdict names t = Some Punctuation.
Proof.
  intros [Hne Hns] Hp Hcolons Hman.
  assert (Ha : existsb isAlnum t = false).
  { apply no_alnum_existsb. eapply Forall_impl; [|exact Hp].
    intros c [H _]. exact H. }
  assert (Hall : forallb punctClass t = true).
  { apply forallb_forall. intros c Hc.
    rewrite Forall_forall in Hp, Hns. destruct (Hp c Hc) as [H1 H2].
    apply punctClass_intro; auto. }
  unfold verdict, IP_ADDRESS_PATTERN, IPV6_PATTERN, MAC_ADDRESS_PATTERN,
    DATE_PATTERNS.
  cbn [existsb].
  rewrite (demands_alnum_rejects IP_ADDRESS_RE t),
    (demands_alnum_rejects IPV6_FULL_RE t),
    (demands_alnum_rejects (lit (str "::1")) t),
    (demands_alnum_rejects MAC_PAIRS_RE t),
    (demands_alnum_rejects MAC_DOTTED_RE t),
    (demands_alnum_rejects (dateDMY "/") t),
    (demands_alnum_rejects (dateDMY "-") t),
    (demands_alnum_rejects dateISO t),
    (demands_alnum_rejects (dateDMY ".") t),
    (demands_alnum_rejects dateMonth t),
    (demands_alnum_rejects ALPHABETIC_RE t)
    by first [exact Ha | vm_compute; reflexivity].
  rewrite (lit_rejects (str "::") t Hcolons).
  rewrite (matchesManufacturer_false names t Hman).
  cbn [orb andb]. rewrite Ha, Hall. reflexivity.
Qed.

Lemma verdict_separator (names : list jsstring) (t : jsstring) :
  Forall (fun c => isAlnum c = false) t ->
  Exists (fun c => isSeparator c = true) t ->
  noManufacturerIn names t ->
  verdict names t = None.
Proof.
  intros Hp Hsep Hman.
  pose proof (no_alnum_existsb t Hp) as Ha.
  assert (Hall : forallb punctClass t = false).
  { apply Exists_exists in Hsep. destruct Hsep as [c [Hc Hs]].
    destruct (forallb punctClass t) eqn:E; [|reflexivity].
    rewrite forallb_forall in E. specialize (E c Hc).
    rewrite (separator_not_punctClass c Hs) in E. discriminate. }
  assert (Hcolons : t <> str "::").
  { intros ->. apply Exists_exists in Hsep. destruct Hsep as [c [Hc Hs]].
    destruct Hc as [<- | [<- | []]]; discriminate. }
  unfold verdict, IP_ADDRESS_PATTERN, IPV6_PATTERN, MAC_ADDRESS_PATTERN,
    DATE_PATTERNS.
  cbn [existsb].
  rewrite (demands_alnum_rejects IP_ADDRESS_RE t),
    (demands_alnum_rejects IPV6_FULL_RE t),
    (demands_alnum_rejects (lit (str "::1")) t),
    (demands_alnum_rejects MAC_PAIRS_RE t),
    (demands_alnum_rejects MAC_DOTTED_RE t),
    (demands_alnum_rejects (dateDMY "/") t),
    (demands_alnum_rejects (dateDMY "-") t),
    (demands_alnum_rejects dateISO t),
    (demands_alnum_rejects (dateDMY ".") t),
    (demands_alnum_rejects dateMonth t),
    (demands_alnum_rejects ALPHABETIC_RE t)
    by first [exact Ha | vm_compute; reflexivity].
  rewrite (lit_rejects (str "::") t Hcolons).
  rewrite (matchesManufacturer_false names t Hman).
  cbn [orb andb]. rewrite Ha, Hall. reflexivity.
Qed.

(** An entry of [removedElements] determines its reason and its token. *)
Lemma removedEntry_injective (r r' : Reason) (t t' : jsstring) :
  removedEntry r t = removedEntry r' t' -> r = r' /\ t = t'.
Proof.
  destruct r, r'; cbv [removedEntry reasonLabel str list_ascii_of_string app];
    intro H; try discriminate; injection H as ->; split; reflexivity.
Qed.

Lemma kept_token_not_recorded (names toks : list jsstring) (t : jsstring)
    (r : Reason) :
  In t toks -> verdict names t = None ->
  In t (filter (isKept names) toks)
  /\ ~ In (removedEntry r t) (flat_map (removedFor names) toks).
Proof.
  intros Hin Hv. split.
  - apply filter_In. split; [exact Hin|]. unfold isKept. rewrite Hv.
    reflexivity.
  - intro H. apply in_flat_map in H. destruct H as [t' [_ H]].
    unfold removedFor in H. destruct (verdict names t') as [r'|] eqn:E;
      [|exact H].
    destruct H as [H | []]. apply removedEntry_injective in H.
    destruct H as [-> ->]. congruence.
Qed.




(** ** Aggregation *)

Lemma indexOf_firstPosition (headers : list jsstring) (name : jsstring)
    (i : nat) :
  firstPosition headers name i -> indexOf headers name = Some i.
Proof.
  revert i. induction headers as [|h rest IH]; intros i [Hi Hj].
  - destruct i; discriminate.
  - cbn [indexOf]. destruct i as [|i].
    + simpl in Hi. injection Hi as Hh. subst h.
      rewrite (proj2 (jsstring_eqb_eq name name) eq_refl). reflexivity.
    + destruct (jsstring_eqb h name) eqn:E.
      * apply jsstring_eqb_eq in E. subst h. exfalso.
        apply (Hj 0); [lia | reflexivity].
      * rewrite (IH i); [reflexivity|]. split; [exact Hi|].
        intros j Hlt. apply (Hj (S j)). lia.
Qed.

Lemma indexOf_absent (headers : list jsstring) (name : jsstring) :
  ~ In name headers -> indexOf headers name = None.
Proof.
  induction headers as [|h rest IH]; intro Hn; cbn [indexOf]; [reflexivity|].
  destruct (jsstring_eqb h name) eqn:E.
  - apply jsstring_eqb_eq in E. exfalso. apply Hn. left. exact E.
  - rewrite IH; [reflexivity|]. intro Hin. apply Hn. right. exact Hin.
Qed.

Lemma Zsum_cons (z : Z) (l : list Z) : Zsum (z :: l) = (z + Zsum l)%Z.
Proof. reflexivity. Qed.

Lemma Zsum_ones (A : Type) (l : list A) :
  Zsum (map (fun _ => 1%Z) l) = Z.of_nat (length l).
Proof.
  induction l as [|x l IH]; [reflexivity|].
  cbn [map length]. rewrite Zsum_cons, IH. lia.
Qed.

Lemma Zsum_Permutation (l l' : list Z) :
  Permutation l l' -> Zsum l = Zsum l'.
Proof.
  induction 1; rewrite ?Zsum_cons in *; lia.
Qed.

Lemma absSum_nonneg (m : list (jsstring * Z)) : (0 <= absSum m)%Z.
Proof.
  unfold absSum. induction m as [|e m IH]; cbn [map]; [reflexivity|].
  rewrite Zsum_cons. lia.
Qed.

Lemma absSum_cons (k : jsstring) (z : Z) (m : list (jsstring * Z)) :
  absSum ((k, z) :: m) = (Z.abs z + absSum m)%Z.
Proof. reflexivity. Qed.

Lemma getZ_bound (m : list (jsstring * Z)) (key : jsstring) :
  (Z.abs (getZ m key) <= absSum m)%Z.
Proof.
  unfold getZ. induction m as [|[k z] m IH]; cbn [mapGet].
  - reflexivity.
  - rewrite absSum_cons. pose proof (absSum_nonneg m).
    destruct (jsstring_eqb k key); lia.
Qed.

Lemma absSum_mapSet (m : list (jsstring * Z)) (key : jsstring) (v : Z) :
  (absSum (mapSet m key (getZ m key + v)%Z) <= absSum m + Z.abs v)%Z.
Proof.
  unfold getZ. induction m as [|[k z] m IH]; cbn [mapSet mapGet].
  - rewrite absSum_cons. unfold absSum. simpl. lia.
  - destruct (jsstring_eqb k key); rewrite !absSum_cons; lia.
Qed.

Lemma Zsum_mapSet (m : list (jsstring * Z)) (key : jsstring) (v : Z) :
  Zsum (map snd (mapSet m key (getZ m key + v)%Z))
  = (Zsum (map snd m) + v)%Z.
Proof.
  unfold getZ. induction m as [|[k z] m IH]; cbn [mapSet mapGet].
  - simpl. lia.
  - destruct (jsstring_eqb k key); cbn [map snd]; rewrite !Zsum_cons; lia.
Qed.

Lemma absSum_tallyRow (mi : option nat) (value : list jsstring -> Z)
    (m : list (jsstring * Z)) (row : list jsstring) :
  (absSum (tallyRow mi value m row)
   <= absSum m + (if hasModel mi row then Z.abs (value row) else 0))%Z.
Proof.
  unfold tallyRow, hasModel, truthy.
  destruct (cellAt row mi) as [model|]; [|lia].
  destruct (nonEmpty model); [apply absSum_mapSet | lia].
Qed.

Lemma Zsum_tallyRow (mi : option nat) (value : list jsstring -> Z)
    (m : list (jsstring * Z)) (row : list jsstring) :
  Zsum (map snd (tallyRow mi value m row))
  = (Zsum (map snd m) + (if hasModel mi row then value row else 0))%Z.
Proof.
  unfold tallyRow, hasModel, truthy.
  destruct (cellAt row mi) as [model|]; [|lia].
  destruct (nonEmpty model); [apply Zsum_mapSet | lia].
Qed.

Lemma Zsum_abs_nonneg (A : Type) (value : A -> Z) (l : list A) :
  (0 <= Zsum (map (fun x => Z.abs (value x)) l))%Z.
Proof.
  induction l as [|x l IH]; cbn [map]; [reflexivity|].
  rewrite Zsum_cons. lia.
Qed.

(** The integer aggregation: its total and the magnitude of its counts. *)
Lemma tally_total (mi : option nat) (value : list jsstring -> Z)
    (rows : list (list jsstring)) (m : list (jsstring * Z)) :
  Zsum (map snd (fold_left (tallyRow mi value) rows m))
  = (Zsum (map snd m) + Zsum (map value (filter (hasModel mi) rows)))%Z
  /\ (absSum (fold_left (tallyRow mi value) rows m)
      <= absSum m
         + Zsum (map (fun row => Z.abs (value row))
                     (filter (hasModel mi) rows)))%Z.
Proof.
  revert m. induction rows as [|row rows IH]; intro m; cbn [fold_left filter].
  - simpl. lia.
  - destruct (IH (tallyRow mi value m row)) as [IH1 IH2].
    rewrite IH1, Zsum_tallyRow.
    pose proof (absSum_tallyRow mi value m row) as Hb.
    destruct (hasModel mi row); cbn [map]; rewrite ?Zsum_cons; lia.
Qed.

Section ExactIntegers.

Context {number : Type} `{HostNumber number}.
Hypothesis Hexact : integersExact number.

Lemma orZero_integer (z : Z) :
  orZero (Some (numberOfInt z)) = numberOfInt z.
Proof.
  unfold orZero. destruct (numberIsFalsy (numberOfInt z)) eqn:E;
    [|reflexivity].
  apply (proj2 Hexact) in E. subst z. reflexivity.
Qed.

Lemma orZero_asNumbers (m : list (jsstring * Z)) (key : jsstring) :
  orZero (mapGet (asNumbers m) key) = numberOfInt (getZ m key).
Proof.
  unfold getZ, asNumbers. induction m as [|[k z] m IH]; cbn [map mapGet fst snd].
  - reflexivity.
  - destruct (jsstring_eqb k key); [apply orZero_integer | exact IH].
Qed.

Lemma mapSet_asNumbers (m : list (jsstring * Z)) (key : jsstring) (z : Z) :
  mapSet (asNumbers m) key (numberOfInt z) = asNumbers (mapSet m key z).
Proof.
  unfold asNumbers. induction m as [|[k w] m IH];
    cbn [map mapSet fst snd]; [reflexivity|].
  destruct (jsstring_eqb k key); cbn [map fst snd]; [reflexivity|].
  rewrite IH. reflexivity.
Qed.

Lemma readsAs_countValueOf (row : list jsstring) (i : nat) (value : Z) :
  readsAs (nth_error row i) value ->
  countValueOf row (Some i) = numberOfInt value.
Proof.
  unfold readsAs, countValueOf, orZero, cellAt.
  destruct (numberIsFalsy _); intro Hv; [subst value; reflexivity | exact Hv].
Qed.

Lemma aggregateRow_contribution (mi ci : option nat)
    (acc : list (jsstring * number)) (row : list jsstring) :
  aggregateRow mi ci acc row
  = match cellAt row mi with
    | Some model =>
        if nonEmpty model
        then mapSet acc model
               (numberAdd (orZero (mapGet acc model)) (contribution ci row))
        else acc
    | None => acc
    end.
Proof.
  unfold aggregateRow, contribution.
  destruct (cellAt row mi) as [model|]; [|reflexivity].
  destruct (nonEmpty model); [|reflexivity].
  destruct ci; reflexivity.
Qed.

(** A row does to the host's map what it does to the integer map. *)
Lemma aggregateRow_tallyRow (mi ci : option nat) (value : list jsstring -> Z)
    (m : list (jsstring * Z)) (row : list jsstring) :
  (hasModel mi row = true -> contribution ci row = numberOfInt (value row)) ->
  (absSum m + (if hasModel mi row then Z.abs (value row) else 0)
   <= exactLimit)%Z ->
  aggregateRow mi ci (asNumbers m) row = asNumbers (tallyRow mi value m row).
Proof.
  rewrite aggregateRow_contribution. unfold tallyRow, hasModel, truthy.
  destruct (cellAt row mi) as [model|]; [|reflexivity].
  destruct (nonEmpty model); [|reflexivity].
  intros Hc Hb. rewrite (Hc eq_refl), orZero_asNumbers.
  pose proof (getZ_bound m model) as Hg.
  rewrite (proj1 Hexact); [apply mapSet_asNumbers | lia | lia | lia].
Qed.

Lemma aggregate_tally (mi ci : option nat) (value : list jsstring -> Z)
    (rows : list (list jsstring)) (m : list (jsstring * Z)) :
  (forall row, In row (filter (hasModel mi) rows) ->
     contribution ci row = numberOfInt (value row)) ->
  (absSum m
   + Zsum (map (fun row => Z.abs (value row)) (filter (hasModel mi) rows))
   <= exactLimit)%Z ->
  fold_left (aggregateRow mi ci) rows (asNumbers m)
  = asNumbers (fold_left (tallyRow mi value) rows m).
Proof.
  revert m. induction rows as [|row rows IH]; intros m Hc Hb;
    cbn [fold_left]; [reflexivity|].
  cbn [filter] in Hc, Hb.
  pose proof (absSum_tallyRow mi value m row) as Ht.
  pose proof (Zsum_abs_nonneg _ value (filter (hasModel mi) rows)) as Hn.
  rewrite (aggregateRow_tallyRow mi ci value).
  - apply IH.
    + intros r Hr. apply Hc. destruct (hasModel mi row); [right|]; exact Hr.
    + destruct (hasModel mi row); cbn [map] in Hb; rewrite ?Zsum_cons in Hb;
        lia.
  - intro Hm. apply Hc. rewrite Hm. left. reflexivity.
  - destruct (hasModel mi row); cbn [map] in Hb; rewrite ?Zsum_cons in Hb;
      lia.
Qed.

(** The running sum of [totalCount] over integer counts. *)
Lemma totalCount_from (m : list (jsstring * Z)) (a : Z) :
  (Z.abs a + absSum m <= exactLimit)%Z ->
  fold_left (fun sum result => numberAdd sum (snd result)) (asNumbers m)
    (numberOfInt a)
  = numberOfInt (a + Zsum (map snd m))%Z.
Proof.
  revert a. unfold asNumbers.
  induction m as [|[k z] m IH]; intros a Hb; cbn [map fold_left fst snd].
  - simpl. rewrite Z.add_0_r. reflexivity.
  - rewrite absSum_cons in Hb. pose proof (absSum_nonneg m) as Hn.
    rewrite (proj1 Hexact), IH, Zsum_cons; [f_equal; lia | lia ..].
Qed.

(** The total of the results, in any order of the labels. *)
Lemma totalCount_results (mi ci : option nat) (value : list jsstring -> Z)
    (rows : list (list jsstring)) (results : list (jsstring * number)) :
  (forall row, In row (filter (hasModel mi) rows) ->
     contribution ci row = numberOfInt (value row)) ->
  (Zsum (map (fun row => Z.abs (value row)) (filter (hasModel mi) rows))
   <= exactLimit)%Z ->
  Permutation results (fold_left (aggregateRow mi ci) rows []) ->
  totalCount results
  = numberOfInt (Zsum (map value (filter (hasModel mi) rows))).
Proof.
  intros Hc Hb Hp.
  change (@nil (jsstring * number)) with (asNumbers []) in Hp.
  rewrite (aggregate_tally mi ci value) in Hp;
    [|exact Hc | unfold absSum; simpl; lia].
  unfold asNumbers in Hp. apply Permutation_map_inv in Hp.
  destruct Hp as [m' [-> Hm']].
  destruct (tally_total mi value rows []) as [Ht Ha].
  assert (Hs : Zsum (map snd m')
               = Zsum (map value (filter (hasModel mi) rows))).
  { rewrite <- (Zsum_Permutation _ _ (Permutation_map snd Hm')), Ht.
    simpl. lia. }
  assert (Hab : (absSum m' <= exactLimit)%Z).
  { unfold absSum in *.
    rewrite <- (Zsum_Permutation _ _
                  (Permutation_map (fun entry => Z.abs (snd entry)) Hm')).
    simpl in Ha. lia. }
  unfold totalCount. fold (asNumbers m').
  rewrite totalCount_from; [rewrite Hs; reflexivity | lia].
Qed.

End ExactIntegers.

Lemma countColumnIndexOf_unselected (headers : list jsstring)
    (selection : ColumnSelection) :
  ~ countColumnSelected headers selection ->
  countColumnIndexOf headers selection = None.
Proof.
  intro Hn. unfold countColumnIndexOf.
  destruct (countColumn selection) as [name|] eqn:E; [|reflexivity].
  destruct name as [|c name]; [reflexivity|].
  change (nonEmpty (c :: name)) with true. cbv iota.
  apply indexOf_absent. intro Hin. apply Hn. exists (c :: name).
  split; [exact E|]. split; [discriminate | exact Hin].
Qed.

Lemma countColumnIndexOf_selected (headers : list jsstring)
    (selection : ColumnSelection) (name : jsstring) (i : nat) :
  countColumn selection = Some name -> name <> [] ->
  firstPosition headers name i ->
  countColumnIndexOf headers selection = Some i.
Proof.
  intros E Hne Hp. unfold countColumnIndexOf. rewrite E.
  destruct name as [|c name]; [contradiction|].
  change (nonEmpty (c :: name)) with true. cbv iota.
  apply indexOf_firstPosition. exact Hp.
Qed.

Lemma integersExact_exampleHost : integersExact exampleNumber.
Proof.
  split.
  - intros a b _ _ _. reflexivity.
  - intros a Ha. apply Z.eqb_eq. exact Ha.
Qed.

Lemma hasModel_hasModelAt (j : nat) (row : list jsstring) :
  hasModel (Some j) row = hasModelAt j row.
Proof.
  unfold hasModel, hasModelAt, truthy, cellAt.
  destruct (nth_error row j) as [[|c cell]|]; reflexivity.
Qed.

(** The rows the loop counts are the rows with a non-empty model cell. *)
Lemma modelRows_counted (headers : list jsstring) (selection : ColumnSelection)
    (rows counted : list (list jsstring)) :
  modelRows headers selection rows counted ->
  counted = filter (hasModel (modelColumnIndexOf headers selection)) rows.
Proof.
  unfold modelColumnIndexOf.
  intros [[name [j [E [Hpos ->]]]] | [Hno ->]].
  - rewrite E, (indexOf_firstPosition _ _ _ Hpos).
    apply filter_ext. intro row. symmetry. apply hasModel_hasModelAt.
  - assert (Hnone : match modelColumn selection with
                    | Some name => indexOf headers name
                    | None => None
                    end = None).
    { destruct (modelColumn selection) as [name|]; [|reflexivity].
      apply indexOf_absent. apply Hno. reflexivity. }
    rewrite Hnone. induction rows as [|row rows IH]; [reflexivity|].
    cbn [filter]. exact IH.
Qed.




(** ** Edit scripts and the distance *)

Section EditDistanceProofs.

Context {char : Type} {host : HostChar char}.

Lemma sameChar_refl (a : char) : sameChar a a = true.
Proof. apply sameChar_eq. reflexivity. Qed.

Lemma distance_nil_r (s : list char) : distance s [] = length s.
Proof. destruct s; reflexivity. Qed.

Lemma distance_cons (a b : char) (s t : list char) :
  distance (a :: s) (b :: t) =
  Nat.min (distance s t + (if sameChar a b then 0 else 1))
          (Nat.min (S (distance s (b :: t))) (S (distance (a :: s) t))).
Proof. reflexivity. Qed.

Lemma edits_insert_all (t : list char) : edits [] t (length t).
Proof.
  induction t as [|b t IH]; simpl; [constructor|].
  apply edits_insert. exact IH.
Qed.

Lemma edits_delete_all (s : list char) : edits s [] (length s).
Proof.
  induction s as [|a s IH]; simpl; [constructor|].
  apply edits_delete. exact IH.
Qed.

(** The distance is the length of some script ... *)
Lemma edits_distance (s t : list char) : edits s t (distance s t).
Proof.
  revert t. induction s as [|a s IHs]; intro t.
  - apply edits_insert_all.
  - induction t as [|b t IHt].
    + rewrite distance_nil_r. apply edits_delete_all.
    + rewrite distance_cons.
      destruct (Nat.min_spec (distance s t + (if sameChar a b then 0 else 1))
                  (Nat.min (S (distance s (b :: t))) (S (distance (a :: s) t))))
        as [[_ ->] | [_ ->]].
      * destruct (sameChar a b) eqn:E.
        -- apply sameChar_eq in E. subst b. rewrite Nat.add_0_r.
           apply edits_keep. apply IHs.
        -- rewrite Nat.add_1_r. apply edits_substitute. apply IHs.
      * destruct (Nat.min_spec (S (distance s (b :: t)))
                    (S (distance (a :: s) t))) as [[_ ->] | [_ ->]].
        -- apply edits_delete. apply IHs.
        -- apply edits_insert. exact IHt.
Qed.

(** ... and no script is shorter. *)
Lemma distance_minimal (s t : list char) (n : nat) :
  edits s t n -> distance s t <= n.
Proof.
  intro H. induction H as [|a s t n H IH|a b s t n H IH|a s t n H IH
                           |b s t n H IH].
  - apply Nat.le_refl.
  - rewrite distance_cons, sameChar_refl. lia.
  - rewrite distance_cons. destruct (sameChar a b); lia.
  - destruct t as [|b t].
    + rewrite distance_nil_r in *. simpl. lia.
    + rewrite distance_cons. lia.
  - destruct s as [|a s].
    + simpl in *. lia.
    + rewrite distance_cons. lia.
Qed.

Lemma distance_isLevenshtein (s t : list char) :
  isLevenshtein s t (distance s t).
Proof.
  split; [apply edits_distance | apply distance_minimal].
Qed.

Lemma isLevenshtein_unique (s t : list char) (d : nat) :
  isLevenshtein s t d -> d = distance s t.
Proof.
  intros [He Hmin]. apply Nat.le_antisymm.
  - apply Hmin, edits_distance.
  - apply distance_minimal, He.
Qed.

Lemma edits_sym (s t : list char) (n : nat) : edits s t n -> edits t s n.
Proof.
  intro H. induction H; constructor; assumption.
Qed.

Lemma distance_sym (s t : list char) : distance s t = distance t s.
Proof.
  apply Nat.le_antisymm; apply distance_minimal, edits_sym, edits_distance.
Qed.

Lemma edits_keep_last (a : char) (s t : list char) (n : nat) :
  edits s t n -> edits (s ++ [a]) (t ++ [a]) n.
Proof.
  intro H. induction H; simpl; try (constructor; assumption).
  apply edits_keep. constructor.
Qed.

Lemma edits_substitute_last (a b : char) (s t : list char) (n : nat) :
  edits s t n -> edits (s ++ [a]) (t ++ [b]) (S n).
Proof.
  intro H. induction H; simpl; try (constructor; assumption).
  apply edits_substitute. constructor.
Qed.

Lemma edits_delete_last (a : char) (s t : list char) (n : nat) :
  edits s t n -> edits (s ++ [a]) t (S n).
Proof.
  intro H. induction H; simpl; try (constructor; assumption).
  apply edits_delete. constructor.
Qed.

Lemma edits_insert_last (b : char) (s t : list char) (n : nat) :
  edits s t n -> edits s (t ++ [b]) (S n).
Proof.
  intro H. induction H; simpl; try (constructor; assumption).
  apply edits_insert. constructor.
Qed.

Lemma edits_rev (s t : list char) (n : nat) :
  edits s t n -> edits (rev s) (rev t) n.
Proof.
  intro H. induction H; simpl.
  - constructor.
  - apply edits_keep_last. assumption.
  - apply edits_substitute_last. assumption.
  - apply edits_delete_last. assumption.
  - apply edits_insert_last. assumption.
Qed.

Lemma distance_rev (s t : list char) :
  distance (rev s) (rev t) = distance s t.
Proof.
  apply Nat.le_antisymm.
  - apply distance_minimal, edits_rev, edits_distance.
  - apply distance_minimal.
    pose proof (edits_rev _ _ _ (edits_distance (rev s) (rev t))) as H.
    rewrite !rev_involutive in H. exact H.
Qed.

(** Dropping the first character of the source costs at most one more
    edit. *)
Lemma edits_uncons (w t : list char) (n : nat) :
  edits w t n -> forall a s, w = a :: s -> exists m, m <= S n /\ edits s t m.
Proof.
  intro H. induction H as [|a0 s0 t n H IH|a0 b s0 t n H IH|a0 s0 t n H IH
                           |b s0 t n H IH]; intros a s Hw.
  - discriminate.
  - injection Hw as -> ->. exists (S n). split; [lia|].
    apply edits_insert. exact H.
  - injection Hw as -> ->. exists (S n). split; [lia|].
    apply edits_insert. exact H.
  - injection Hw as -> ->. exists n. split; [lia | exact H].
  - destruct (IH a s Hw) as [m [Hm He]]. exists (S m). split; [lia|].
    apply edits_insert. exact He.
Qed.

Lemma distance_uncons_l (a : char) (s t : list char) :
  distance s t <= S (distance (a :: s) t).
Proof.
  destruct (edits_uncons (a :: s) t _ (edits_distance (a :: s) t) a s eq_refl)
    as [m [Hm He]].
  apply distance_minimal in He. lia.
Qed.

Lemma distance_uncons_r (b : char) (s t : list char) :
  distance s t <= S (distance s (b :: t)).
Proof.
  rewrite (distance_sym s t), (distance_sym s (b :: t)).
  apply distance_uncons_l.
Qed.

(** The recurrence of the source at the first characters ... *)
Lemma distance_step (a b : char) (s t : list char) :
  distance (a :: s) (b :: t) =
  if sameChar a b then distance s t
  else S (Nat.min (distance s t)
            (Nat.min (distance (a :: s) t) (distance s (b :: t)))).
Proof.
  rewrite distance_cons.
  pose proof (distance_uncons_l a s t).
  pose proof (distance_uncons_r b s t).
  pose proof (distance_uncons_l a s (b :: t)).
  pose proof (distance_uncons_r b (a :: s) t).
  destruct (sameChar a b) eqn:E; [|lia].
  apply sameChar_eq in E. subst b. lia.
Qed.

(** ... and at the last characters, as the matrix is filled. *)
Lemma distance_step_last (a b : char) (s t : list char) :
  distance (s ++ [a]) (t ++ [b]) =
  if sameChar a b then distance s t
  else S (Nat.min (distance s t)
            (Nat.min (distance (s ++ [a]) t) (distance s (t ++ [b])))).
Proof.
  rewrite <- (distance_rev (s ++ [a]) (t ++ [b])).
  rewrite <- (distance_rev (s ++ [a]) t), <- (distance_rev s (t ++ [b])).
  rewrite <- (distance_rev s t).
  rewrite !rev_app_distr. simpl. apply distance_step.
Qed.

Lemma distance_le_max (s t : list char) :
  distance s t <= Nat.max (length s) (length t).
Proof.
  apply distance_minimal. revert t.
  induction s as [|a s IH]; intro t.
  - simpl. apply edits_insert_all.
  - destruct t as [|b t].
    + simpl. apply edits_delete. apply edits_delete_all.
    + simpl. apply edits_substitute. apply IH.
Qed.

(** ** The distance matrix *)

Lemma prefixes_cons (c : char) (s : list char) :
  prefixes (c :: s) = [] :: map (cons c) (prefixes s).
Proof. reflexivity. Qed.

Lemma prefixes_head (s : list char) : prefixes s = [] :: tl (prefixes s).
Proof. destruct s; reflexivity. Qed.

Lemma prefixes_length (s : list char) : length (prefixes s) = S (length s).
Proof.
  induction s as [|c s IH]; [reflexivity|].
  rewrite prefixes_cons. simpl. rewrite length_map, IH. reflexivity.
Qed.

Lemma prefixes_last (s : list char) : nth (length s) (prefixes s) [] = s.
Proof.
  induction s as [|c s IH]; [reflexivity|].
  rewrite prefixes_cons. cbn [length nth].
  rewrite (nth_indep _ [] (c :: [])) by (rewrite length_map, prefixes_length; lia).
  change [c] with (cons c []). rewrite map_nth, IH. reflexivity.
Qed.

Lemma prefixes_lengths (s : list char) :
  map (@length char) (prefixes s) = seq 0 (S (length s)).
Proof.
  induction s as [|c s IH]; [reflexivity|].
  rewrite prefixes_cons.
  change (seq 0 (S (length (c :: s)))) with (0 :: seq 1 (S (length s))).
  cbn [map]. rewrite map_map. f_equal.
  rewrite <- seq_shift, <- IH, map_map. reflexivity.
Qed.

(** Row 0 holds the distances of the empty prefix of [str2]. *)
Lemma firstRow_spec (str1 : list char) :
  firstRow str1 = map (distance []) (prefixes str1).
Proof.
  unfold firstRow. rewrite <- prefixes_lengths. reflexivity.
Qed.

(** The inner loop: from the row of [p2] it computes the row of
    [p2 ++ [c2]], column by column. *)
Lemma fillRow_spec (c2 : char) (p2 rest : list char) :
  forall done,
    fillRow c2 rest (map (fun x => distance p2 (done ++ x)) (prefixes rest))
      (distance (p2 ++ [c2]) done)
    = map (fun x => distance (p2 ++ [c2]) (done ++ x)) (tl (prefixes rest)).
Proof.
  induction rest as [|c1 rest IH]; intro done; [reflexivity|].
  rewrite prefixes_cons. cbn [map tl]. rewrite !map_map.
  rewrite (map_ext (fun x => distance p2 (done ++ c1 :: x))
             (fun x => distance p2 ((done ++ [c1]) ++ x)))
    by (intro x; rewrite <- app_assoc; reflexivity).
  rewrite (map_ext (fun x => distance (p2 ++ [c2]) (done ++ c1 :: x))
             (fun x => distance (p2 ++ [c2]) ((done ++ [c1]) ++ x)))
    by (intro x; rewrite <- app_assoc; reflexivity).
  rewrite (prefixes_head rest) at 2. cbn [map].
  rewrite (prefixes_head rest) at 1. cbn [map fillRow].
  rewrite !app_nil_r.
  assert (Hcell :
    (if sameChar c2 c1 then distance p2 done
     else Nat.min (distance p2 done + 1)
            (Nat.min (distance (p2 ++ [c2]) done + 1)
                     (distance p2 (done ++ [c1]) + 1)))
    = distance (p2 ++ [c2]) (done ++ [c1])).
  { rewrite distance_step_last. destruct (sameChar c2 c1); lia. }
  rewrite Hcell. f_equal.
  specialize (IH (done ++ [c1])).
  rewrite (prefixes_head rest) in IH at 1. cbn [map] in IH.
  rewrite app_nil_r in IH. exact IH.
Qed.

Lemma nextRow_spec (c2 : char) (p2 str1 : list char) :
  nextRow (S (length p2)) c2 str1 (map (distance p2) (prefixes str1))
  = map (distance (p2 ++ [c2])) (prefixes str1).
Proof.
  unfold nextRow. rewrite (prefixes_head str1) at 2. cbn [map].
  f_equal.
  - rewrite distance_nil_r, length_app. simpl. lia.
  - replace (S (length p2)) with (distance (p2 ++ [c2]) [])
      by (rewrite distance_nil_r, length_app; simpl; lia).
    exact (fillRow_spec c2 p2 str1 []).
Qed.

(** The outer loop, one row for each further character of [str2]. *)
Lemma fillRows_spec (str1 rest : list char) :
  forall p2,
    fillRows (S (length p2)) rest str1 (map (distance p2) (prefixes str1))
    = map (fun y => map (distance (p2 ++ y)) (prefixes str1))
          (tl (prefixes rest)).
Proof.
  induction rest as [|c2 rest IH]; intro p2; [reflexivity|].
  cbn [fillRows]. rewrite nextRow_spec.
  rewrite prefixes_cons. cbn [tl]. rewrite map_map.
  rewrite (prefixes_head rest). cbn [map]. f_equal.
  specialize (IH (p2 ++ [c2])).
  rewrite length_app in IH. simpl in IH. rewrite Nat.add_1_r in IH.
  rewrite IH. apply map_ext. intro y. rewrite <- app_assoc. reflexivity.
Qed.

(** Cell [i], [j] of the matrix is the distance of the first [i] characters
    of [str2] and the first [j] characters of [str1]. *)
Lemma levenshteinMatrix_spec (str1 str2 : list char) :
  levenshteinMatrix str1 str2
  = map (fun y => map (distance y) (prefixes str1)) (prefixes str2).
Proof.
  unfold levenshteinMatrix. rewrite firstRow_spec.
  rewrite (prefixes_head str2). cbn [map]. f_equal.
  exact (fillRows_spec str1 str2 []).
Qed.

Lemma levenshteinDistance_spec (str1 str2 : list char) :
  levenshteinDistance str1 str2 = distance str1 str2.
Proof.
  unfold levenshteinDistance. rewrite levenshteinMatrix_spec.
  rewrite (nth_indep _ [] (map (distance []) (prefixes str1)))
    by (rewrite length_map, prefixes_length; lia).
  rewrite (map_nth (fun y => map (distance y) (prefixes str1))
             (prefixes str2) [] (length str2)).
  rewrite prefixes_last.
  rewrite (nth_indep _ 0 (distance str2 []))
    by (rewrite length_map, prefixes_length; lia).
  rewrite (map_nth (distance str2) (prefixes str1) [] (length str1)).
  rewrite prefixes_last. apply distance_sym.
Qed.

End EditDistanceProofs.

(** ** The similarity scorer *)

Lemma Zpos_of_nat (m : nat) : 0 < m -> Z.pos (Pos.of_nat m) = Z.of_nat m.
Proof.
  intro H. rewrite <- positive_nat_Z, Nat2Pos.id by lia. reflexivity.
Qed.

Lemma ratio_quotient (m d : nat) :
  0 < m ->
  (Qmake (Z.of_nat m - Z.of_nat d) (Pos.of_nat m)
   == (inject_Z (Z.of_nat m) - inject_Z (Z.of_nat d)) / inject_Z (Z.of_nat m))%Q.
Proof.
  intro Hm. rewrite Qmake_Qdiv, (Zpos_of_nat m Hm).
  unfold Qminus. rewrite <- inject_Z_opp, <- inject_Z_plus. reflexivity.
Qed.

Lemma ratio_range (m d : nat) :
  0 < m -> d <= m ->
  let q := Qmake (Z.of_nat m - Z.of_nat d) (Pos.of_nat m) in
  (0 <= q /\ q <= 1)%Q.
Proof.
  intros Hm Hd q. unfold q. split.
  - unfold Qle. simpl. lia.
  - unfold Qle. simpl. rewrite (Zpos_of_nat m Hm). lia.
Qed.

Lemma length_toLowerCase (s : jsstring) : length (toLowerCase s) = length s.
Proof. apply length_map. Qed.

(** The scorer in closed form. *)
Lemma calculateSimilarity_closed {char : Type} `{HostChar char}
    (str1 str2 : list char) :
  let m := Nat.max (length str1) (length str2) in
  let d := distance (lowerCase str1) (lowerCase str2) in
  calculateSimilarity str1 str2
  = if m =? 0 then 1%Q
    else Qmake (Z.of_nat m - Z.of_nat d) (Pos.of_nat m).
Proof.
  intros m d. unfold calculateSimilarity, m, d.
  destruct (length str2 <? length str1) eqn:E.
  - apply Nat.ltb_lt in E. rewrite Nat.max_l by lia.
    rewrite levenshteinDistance_spec. reflexivity.
  - apply Nat.ltb_ge in E. rewrite Nat.max_r by lia.
    rewrite levenshteinDistance_spec, distance_sym. reflexivity.
Qed.

(** The result is at most 1 ... *)
Lemma calculateSimilarity_le_1 {char : Type} `{HostChar char}
    (str1 str2 : list char) :
  (calculateSimilarity str1 str2 <= 1)%Q.
Proof.
  rewrite calculateSimilarity_closed.
  destruct (Nat.max (length str1) (length str2) =? 0) eqn:E;
    [discriminate|].
  apply Nat.eqb_neq in E. unfold Qle. simpl.
  rewrite Zpos_of_nat by lia. lia.
Qed.

(** ... and at least 0 where lower-casing keeps the lengths. *)
Lemma calculateSimilarity_ge_0 {char : Type} `{HostChar char}
    (str1 str2 : list char) :
  length (lowerCase str1) = length str1 ->
  length (lowerCase str2) = length str2 ->
  (0 <= calculateSimilarity str1 str2)%Q.
Proof.
  intros H1 H2. rewrite calculateSimilarity_closed.
  destruct (Nat.max (length str1) (length str2) =? 0) eqn:E;
    [discriminate|].
  apply Nat.eqb_neq in E.
  pose proof (distance_le_max (lowerCase str1) (lowerCase str2)) as Hd.
  rewrite H1, H2 in Hd.
  apply ratio_range; [lia | exact Hd].
Qed.

(** On the code units below 256 the result is always in [0, 1]. *)
Lemma calculateSimilarity_latin1 (str1 str2 : jsstring) :
  (0 <= calculateSimilarity str1 str2 /\ calculateSimilarity str1 str2 <= 1)%Q.
Proof.
  split; [|apply calculateSimilarity_le_1].
  apply calculateSimilarity_ge_0; apply length_toLowerCase.
Qed.

(** The two carriers agree on the code units below 256. *)
Lemma distance_map {A B : Type} {hostA : HostChar A} {hostB : HostChar B}
    (f : A -> B) :
  (forall a b, sameChar (f a) (f b) = sameChar a b) ->
  forall s t, distance (map f s) (map f t) = distance s t.
Proof.
  intro Hf. induction s as [|a s IHs]; intro t.
  - simpl. apply length_map.
  - induction t as [|b t IHt].
    + cbn [map]. rewrite !distance_nil_r. cbn [length]. rewrite length_map.
      reflexivity.
    + cbn [map]. rewrite !distance_cons, Hf, IHs.
      change (f b :: map f t) with (map f (b :: t)). rewrite IHs.
      change (f a :: map f s) with (map f (a :: s)). rewrite IHt.
      reflexivity.
Qed.

Lemma lowerUnit_latin1 (c : ascii) :
  lowerUnit (N_of_ascii c) = [N_of_ascii (lowerChar c)].
Proof.
  destruct c as [[] [] [] [] [] [] [] []]; vm_compute; reflexivity.
Qed.

Lemma lowerCase_utf16_latin1 (s : jsstring) :
  lowerCase (map N_of_ascii s) = map N_of_ascii (toLowerCase s).
Proof.
  induction s as [|c s IH]; [reflexivity|].
  cbn [map toLowerCase]. change (lowerCase (N_of_ascii c :: map N_of_ascii s))
    with (lowerUnit (N_of_ascii c) ++ lowerCase (map N_of_ascii s)).
  rewrite lowerUnit_latin1, IH. reflexivity.
Qed.

Lemma sameChar_N_of_ascii (a b : ascii) :
  sameChar (N_of_ascii a) (N_of_ascii b) = sameChar a b.
Proof.
  apply eq_true_iff_eq. rewrite !sameChar_eq. split; [|congruence].
  intro H. apply (f_equal ascii_of_N) in H.
  rewrite !ascii_N_embedding in H. exact H.
Qed.

Lemma calculateSimilarity_utf16_latin1 (str1 str2 : jsstring) :
  calculateSimilarity (map N_of_ascii str1) (map N_of_ascii str2)
  = calculateSimilarity str1 str2.
Proof.
  rewrite !calculateSimilarity_closed, !length_map, !lowerCase_utf16_latin1.
  rewrite (distance_map N_of_ascii sameChar_N_of_ascii).
  reflexivity.
Qed.

(** C4, as amended.  For all strings the scorer returns (max(len1,len2) -
    d) / max(len1,len2), where the lengths are those of the strings as
    given and d is the Levenshtein distance with unit costs of the
    lower-cased strings, and it returns 1.0 when both strings are empty.
    The result is at most 1, and it is at least 0 when lower-casing keeps
    the length of both strings. *)
Theorem calculateSimilarity_spec {char : Type} `{HostChar char}
    (str1 str2 : list char) :
  let m := Nat.max (length str1) (length str2) in
  exists d,
    isLevenshtein (lowerCase str1) (lowerCase str2) d
    /\ (calculateSimilarity str1 str2
        == if m =? 0 then 1
           else (inject_Z (Z.of_nat m) - inject_Z (Z.of_nat d))
                / inject_Z (Z.of_nat m))%Q
    /\ calculateSimilarity (@nil char) (@nil char) = 1%Q
    /\ (calculateSimilarity str1 str2 <= 1)%Q
    /\ (length (lowerCase str1) = length str1 ->
        length (lowerCase str2) = length str2 ->
        (0 <= calculateSimilarity str1 str2)%Q).
Proof.
  intro m. exists (distance (lowerCase str1) (lowerCase str2)).
  split; [apply distance_isLevenshtein|].
  split; [|split; [reflexivity|split;
    [apply calculateSimilarity_le_1 | apply calculateSimilarity_ge_0]]].
  rewrite calculateSimilarity_closed. fold m.
  destruct (m =? 0) eqn:E; [reflexivity|].
  apply Nat.eqb_neq in E. apply ratio_quotient. lia.
Qed.

Lemma calculateSimilarity_spec_witness :
  (0 <= calculateSimilarity (str "P3245LVE") (str "P3245-lve"))%Q.
Proof.
  destruct (calculateSimilarity_spec (str "P3245LVE") (str "P3245-lve"))
    as [d [_ [_ [_ [_ Hrange]]]]].
  apply Hrange; reflexivity.
Defined.

(** C4 as stated fails where lower-casing lengthens a string: the lower
    case of U+0130 is two code units, so two of them against [xy] give the
    distance 4 at the length 2, and the similarity -1. *)
Lemma similarity_below_zero :
  let str1 := [304%N; 304%N] in
  let str2 := [120%N; 121%N] in
  lowerCase str1 = [105%N; 775%N; 105%N; 775%N]
  /\ lowerCase str2 = str2
  /\ levenshteinDistance (lowerCase str2) (lowerCase str1) = 4
  /\ calculateSimilarity str1 str2 = (-2 # 2)%Q
  /\ ~ (0 <= calculateSimilarity str1 str2)%Q.
Proof.
  repeat split; try (vm_compute; reflexivity).
  vm_compute. intro H. apply H. reflexivity.
Qed.

(** ** Scenarios of the specification *)

Example scenario_cleaning :
  cleanModelData (str "AXS-4000 192.168.1.5 2023-04-01 Axis") [str "Axis"]
  = mkCleaningResult (str "AXS-4000 192.168.1.5 2023-04-01 Axis")
      (str "AXS-4000")
      [str "IP: 192.168.1.5"; str "Date: 2023-04-01"; str "Manufacturer: Axis"].
Proof. vm_compute. reflexivity. Qed.

Example scenario_potential :
  let entry := mkVerkadaModel (str "Axis") (str "P3245-LVE") [] [] in
  findBestMatch [entry] (str "P3245LVE") [str "Axis"]
  = mkMatchInfo potential (Some (str "P3245-LVE")) (Some (8 # 9)%Q)
      (Some entry) (Some ONVIF_S).
Proof. vm_compute. reflexivity. Qed.

Example scenario_rtsp :
  let entry :=
    mkVerkadaModel (str "Hikvision") (str "DS-2CD2143G0-I") []
      (str "RTSP support only") in
  compatibilityType (findBestMatch [entry] (str "DS-2CD2143G0-I") [])
  = Some RTSP.
Proof. vm_compute. reflexivity. Qed.

Example scenario_aggregation :
  aggregate [str "Model"; str "Qty"]
    [[str "CamA"; str "3"]; [str "CamA"; str "2"]; [str "CamB"; str "1"]]
    (mkColumnSelection (Some (str "Model")) (Some (str "Qty")))
  = [(str "CamA", Integer 5); (str "CamB", Integer 1)].
Proof. vm_compute. reflexivity. Qed.

(** A count that passes through [NaN] is started again from [0] by
    [|| 0]: the label ends at 5, which is not the sum of its cells. *)
Example scenario_infinite_counts :
  aggregate [str "Model"; str "Qty"]
    [[str "CamA"; str "Infinity"]; [str "CamA"; str "-Infinity"];
     [str "CamA"; str "5"]]
    (mkColumnSelection (Some (str "Model")) (Some (str "Qty")))
  = [(str "CamA", Integer 5)].
Proof. vm_compute. reflexivity. Qed.

Example scenario_distance :
  levenshteinDistance (str "kitten") (str "sitting") = 3.
Proof. vm_compute. reflexivity. Qed.
